(** * cmdline_parser.h: a shallow embedding of [cmdline::parse]

    The header [include/cmdline_parser.h] declares one record,
    [ProgramOption], and one entry point, [cmdline::parse], which resolves
    an argument vector against a list of options.  The code either returns
    a [std::map<std::string, std::string>], or writes to the two standard
    streams and calls [std::exit], or trips one of its [assert]s.

    Conventions of the embedding:
    - [std::string] is [string]; [std::vector] is [list];
      [std::map<std::string, T>] is [gmap string T];
    - a call of [parse] ends in an [outcome]: a returned value, a process
      exit (with its code and everything written to [std::cout] and
      [std::cerr]), a failed [assert] (the header is compiled without
      [NDEBUG]), or an operation whose behaviour the language leaves
      undefined ([front()] or [back()] of an empty string, a
      [std::string] built from a null pointer);
    - [argc] is the length of [argv];
    - the [_WIN32] conditional of [extractProgramName] is a boolean
      parameter [win32]. *)

From stdpp Require Import base option list strings gmap.
From Stdlib Require Import Ascii String ZArith Lia.

Local Open Scope string_scope.
Local Open Scope Z_scope.

Module cmdline.

(** ** Strings and maps as the code uses them *)

(** The line feed written by ["\n"] and by [std::endl]. *)
Definition nl : string := String "010"%char EmptyString.

(** [std::string::empty]. *)
Definition empty (s : string) : bool :=
  match s with
  | EmptyString => true
  | String _ _ => false
  end.

(** [std::string::front]; [None] on the empty string, where the call has
    no defined behaviour. *)
Definition front (s : string) : option ascii :=
  match s with
  | EmptyString => None
  | String c _ => Some c
  end.

(** [std::string::back], with the same convention. *)
Fixpoint back (s : string) : option ascii :=
  match s with
  | EmptyString => None
  | String c EmptyString => Some c
  | String _ s' => back s'
  end.

(** [p[0]] for a C string [p]: the terminating zero when [p] is empty. *)
Definition c_first (s : string) : ascii :=
  match s with
  | EmptyString => "000"%char
  | String c _ => c
  end.

(** [std::string(n, ' ')]. *)
Fixpoint spaces (n : nat) : string :=
  match n with
  | O => EmptyString
  | S n' => String " "%char (spaces n')
  end.

(** [s.find_last_of(c)]; [None] stands for [std::string::npos]. *)
Fixpoint find_last_of (c : ascii) (s : string) : option nat :=
  match s with
  | EmptyString => None
  | String a s' =>
      match find_last_of c s' with
      | Some n => Some (S n)
      | None => if Ascii.eqb a c then Some O else None
      end
  end.

(** [s.substr(pos)] for [pos <= s.length()]. *)
Fixpoint substr (pos : nat) (s : string) : string :=
  match pos, s with
  | O, _ => s
  | S p, String _ s' => substr p s'
  | S _, EmptyString => EmptyString
  end.

(** [m[k]] on a [std::map<std::string, std::string>]: the value read, and
    the map afterwards (a missing key is inserted with the empty string). *)
Definition subscript (m : gmap string string) (k : string)
  : string * gmap string string :=
  match m !! k with
  | Some v => (v, m)
  | None => (EmptyString, <[k := EmptyString]> m)
  end.

(** The value [m[k]] reads, without the insertion. *)
Definition value_at (m : gmap string string) (k : string) : string :=
  default EmptyString (m !! k).

(** ** Outcomes *)

(** The operations of the header that have no defined behaviour on some
    arguments. *)
Inductive undefined_op : Type :=
| front_of_empty      (* [s.front()] with [s] empty *)
| back_of_empty       (* [s.back()] with [s] empty *)
| string_of_null.     (* [std::string] built from a null [char *] *)

Inductive outcome (A : Type) : Type :=
| Returned (a : A)
| Exited (code : Z) (out err : string)
| AssertionFailed
| Undefined (op : undefined_op).

Arguments Returned {A} a.
Arguments Exited {A} code out err.
Arguments AssertionFailed {A}.
Arguments Undefined {A} op.

#[global] Instance outcome_bind : MBind outcome := λ A B k m,
  match m with
  | Returned a => k a
  | Exited code out err => Exited code out err
  | AssertionFailed => AssertionFailed
  | Undefined op => Undefined op
  end.

(** [assert(b); k]. *)
Definition assert {A : Type} (b : bool) (k : outcome A) : outcome A :=
  if b then k else AssertionFailed.

(** ** [struct ProgramOption] *)

Record ProgramOption : Type := {
  name : string;
  flags : list string;
  description : string;
  defaultValue : string
}.

(** [ProgramOption{}]. *)
Definition ProgramOption_default : ProgramOption :=
  {| name := ""; flags := []; description := ""; defaultValue := "" |}.

(** [ProgramOption(std::string optName, std::string optDescr,
    std::string optDefVal)]. *)
Definition ProgramOption_named (optName optDescr optDefVal : string)
  : outcome ProgramOption :=
  match back optDescr with
  | None => Undefined back_of_empty
  | Some c =>
      assert (negb (Ascii.eqb c "."%char))
        (if String.eqb optName "help" then
           assert (empty optDefVal)
             (Returned {| name := optName; flags := ["-h"; "--help"];
                          description := "print this help message";
                          defaultValue := optDescr |})
         else if String.eqb optName "version" then
           assert (empty optDefVal)
             (Returned {| name := optName; flags := ["-v"; "--version"];
                          description := "print program version";
                          defaultValue := optDescr |})
         else
           assert (negb (empty optDescr))
             (Returned {| name := optName; flags := [];
                          description := optDescr;
                          defaultValue := optDefVal |}))
  end.

(** The loop of the second constructor over [optFlags]. *)
Fixpoint collectFlags (optFlags : list string) (opt : ProgramOption)
  : outcome ProgramOption :=
  match optFlags with
  | [] => Returned opt
  | f :: optFlags' =>
      match front f with
      | None => Undefined front_of_empty
      | Some c =>
          if Ascii.eqb c "-"%char then
            collectFlags optFlags'
              {| name := name opt; flags := flags opt ++ [f];
                 description := description opt;
                 defaultValue := defaultValue opt |}
          else
            assert (empty (name opt))
              (collectFlags optFlags'
                 {| name := f; flags := flags opt;
                    description := description opt;
                    defaultValue := defaultValue opt |})
      end
  end.

(** [ProgramOption(std::initializer_list<std::string> optFlags,
    std::string optDescr, std::string optDefVal)]. *)
Definition ProgramOption_flagged (optFlags : list string)
  (optDescr optDefVal : string) : outcome ProgramOption :=
  match back optDescr with
  | None => Undefined back_of_empty
  | Some c =>
      assert (negb (Ascii.eqb c "."%char))
        (collectFlags optFlags
           {| name := ""; flags := []; description := optDescr;
              defaultValue := optDefVal |})
  end.

(** ** [namespace priv] *)

Module priv.

(** [extractProgramName].  [lastAntiSlash + 1] wraps to [0] when
    [lastAntiSlash] is [npos], so the comparison is then false. *)
Definition extractProgramName (win32 : bool) (argv0 : string) : string :=
  let lastSlash :=
    match find_last_of "/"%char argv0 with
    | None => O
    | Some n => S n
    end in
  let lastSlash :=
    if win32 then
      let next := match find_last_of "\"%char argv0 with
                  | None => O
                  | Some n => S n
                  end in
      if Nat.ltb lastSlash next then next else lastSlash
    else lastSlash in
  substr lastSlash argv0.

(** The inner loops that join flags: [sep] is added before a flag only
    when the accumulator is not empty. *)
Fixpoint joinFlags (sep : string) (acc : string) (fs : list string) : string :=
  match fs with
  | [] => acc
  | f :: fs' =>
      joinFlags sep ((if empty acc then acc else acc +:+ sep) +:+ f) fs'
  end.

(** First loop of [displayHelpMessage]: the triple
    [(aboutMsg, allPositionals, helpAndVersion)]. *)
Fixpoint helpSummary (options : list ProgramOption)
  (acc : string * string * string) : string * string * string :=
  match options with
  | [] => acc
  | opt :: options' =>
      let '(aboutMsg, allPositionals, helpAndVersion) := acc in
      helpSummary options'
        (if String.eqb (name opt) "help" then
           (defaultValue opt, allPositionals,
            joinFlags " | " helpAndVersion (flags opt))
         else if String.eqb (name opt) "version" then
           (aboutMsg, allPositionals,
            joinFlags " | " helpAndVersion (flags opt))
         else if negb (empty (name opt)) then
           (aboutMsg, allPositionals +:+ " " +:+ name opt, helpAndVersion)
         else acc)
  end.

(** Second loop of [displayHelpMessage]: one line per option with flags. *)
Fixpoint helpOptions (options : list ProgramOption) : string :=
  match options with
  | [] => ""
  | opt :: options' =>
      (match flags opt with
       | [] => ""
       | _ =>
           let allFlags := joinFlags ", " "" (flags opt) in
           let paddingLength :=
             if Nat.ltb (String.length allFlags) 20
             then (20 - String.length allFlags)%nat else O in
           "  " +:+ allFlags +:+ spaces paddingLength
             +:+ description opt +:+ nl
       end) +:+ helpOptions options'
  end.

(** [displayHelpMessage]: everything it writes to [std::cout]. *)
Definition displayHelpMessage (win32 : bool) (argv0 : string)
  (options : list ProgramOption) : string :=
  let '(aboutMsg, allPositionals, helpAndVersion) :=
    helpSummary options ("", "", "") in
  let progName := extractProgramName win32 argv0 in
  "Usage: " +:+ progName +:+ " [OPTIONS]" +:+ allPositionals +:+ nl
  +:+ (if empty helpAndVersion then ""
       else "       " +:+ progName +:+ " [" +:+ helpAndVersion +:+ "]" +:+ nl)
  +:+ nl
  +:+ (if empty aboutMsg then "" else aboutMsg +:+ "." +:+ nl +:+ nl)
  +:+ "Options:" +:+ nl
  +:+ nl
  +:+ helpOptions options
  +:+ nl.

(** First loop of [displayHelpMessageWindowsStyle]: the triple
    [(aboutMsg, allFlags, allPositionals)].  An option with neither a
    name nor a flag fails the [assert] that guards [flags.front()]. *)
Fixpoint windowsSummary (options : list ProgramOption)
  (acc : string * string * string) : outcome (string * string * string) :=
  match options with
  | [] => Returned acc
  | opt :: options' =>
      let '(aboutMsg, allFlags, allPositionals) := acc in
      if String.eqb (name opt) "help" then
        windowsSummary options' (defaultValue opt, allFlags, allPositionals)
      else if String.eqb (name opt) "version" then
        windowsSummary options' acc
      else if empty (name opt) then
        match flags opt with
        | [] => AssertionFailed
        | f :: _ =>
            windowsSummary options'
              (aboutMsg, allFlags +:+ " [" +:+ f +:+ "]", allPositionals)
        end
      else
        windowsSummary options'
          (aboutMsg, allFlags, allPositionals +:+ " " +:+ name opt)
  end.

(** Second loop of [displayHelpMessageWindowsStyle]: two lines per
    option with flags. *)
Fixpoint windowsOptions (options : list ProgramOption) : string :=
  match options with
  | [] => ""
  | opt :: options' =>
      (match flags opt with
       | [] => ""
       | _ =>
           "  " +:+ joinFlags ", " "" (flags opt) +:+ nl
             +:+ spaces 8 +:+ description opt +:+ nl
       end) +:+ windowsOptions options'
  end.

(** [displayHelpMessageWindowsStyle]: when it returns, everything it has
    written to [std::cout]. *)
Definition displayHelpMessageWindowsStyle (win32 : bool) (argv0 : string)
  (options : list ProgramOption) : outcome string :=
  '(aboutMsg, allFlags, allPositionals) ←
     windowsSummary options ("", "", "");
  Returned
    ((if empty aboutMsg then "" else aboutMsg +:+ "." +:+ nl)
     +:+ nl
     +:+ extractProgramName win32 argv0 +:+ allFlags +:+ allPositionals +:+ nl
     +:+ nl
     +:+ windowsOptions options
     +:+ nl).

(** [setValue]: the key written is [opt.name]. *)
Definition setValue (result : gmap string string) (opt : ProgramOption)
  (value : string) : outcome (gmap string string) :=
  let '(old, result) := subscript result (name opt) in
  assert (empty old) (Returned (<[name opt := value]> result)).

End priv.

(** ** [parse] *)

(** The first loop of [parse] keeps three variables. *)
Record tables : Type := {
  allFlags : gmap string ProgramOption;
  result : gmap string string;
  positionalOption : ProgramOption
}.

(** [for (auto name : opt.flags)]: register each flag and its default. *)
Fixpoint registerFlags (opt : ProgramOption) (names : list string)
  (allFlags : gmap string ProgramOption) (result : gmap string string)
  : outcome (gmap string ProgramOption * gmap string string) :=
  match names with
  | [] => Returned (allFlags, result)
  | name :: names' =>
      assert (bool_decide (allFlags !! name = None))
        (registerFlags opt names'
           (<[name := opt]> allFlags) (<[name := defaultValue opt]> result))
  end.

(** The test that makes an option the positional one. *)
Definition isPositional (opt : ProgramOption) : bool :=
  negb (empty (name opt))
  && bool_decide (flags opt = [])
  && negb (String.eqb (name opt) "help")
  && negb (String.eqb (name opt) "version").

(** [for (const auto opt : options)]. *)
Fixpoint buildTables (options : list ProgramOption) (t : tables)
  : outcome tables :=
  match options with
  | [] => Returned t
  | opt :: options' =>
      '(allFlags', result') ←
         registerFlags opt (flags opt) (allFlags t) (result t);
      if isPositional opt then
        assert (empty (name (positionalOption t)))
          (buildTables options'
             {| allFlags := allFlags'; result := result';
                positionalOption := opt |})
      else
        buildTables options'
          {| allFlags := allFlags'; result := result';
             positionalOption := positionalOption t |}
  end.

Definition initialTables : tables :=
  {| allFlags := ∅; result := ∅; positionalOption := ProgramOption_default |}.

Section Parse.

Variable win32 : bool.
(** [argv[0]], or [None] when [argc] is [0] and [argv[0]] is null. *)
Variable argv0 : option string.
Variable options : list ProgramOption.

(** [displayHelpMessage(argv[0], options); std::exit(code)] after [err]
    went to [std::cerr]. *)
Definition exitWithHelp {A : Type} (code : Z) (err : string) : outcome A :=
  match argv0 with
  | None => Undefined string_of_null
  | Some a => Exited code (priv.displayHelpMessage win32 a options) err
  end.

Definition missingOptionValue (arg : string) (opt : ProgramOption) : string :=
  "Error: missing value for option '" +:+ arg +:+ "' ("
    +:+ description opt +:+ ")." +:+ nl.

Definition unknownOption (arg : string) : string :=
  "Error: unknown option '" +:+ arg +:+ "'" +:+ nl.

Definition unexpectedValue (arg : string) : string :=
  "Error: unexpected value '" +:+ arg +:+ "'." +:+ nl.

Definition missingPositional (opt : ProgramOption) : string :=
  "Error: missing '" +:+ name opt +:+ "' value ("
    +:+ description opt +:+ ")." +:+ nl.

Variable allFlagsTable : gmap string ProgramOption.

(** [for (int i = 1; i < argc; ++i)] over the tokens [argv[i..argc-1]]
    still to read; the loop variables are [result] and
    [positionalOption]. *)
Fixpoint processArgs (args : list string) (result : gmap string string)
  (positionalOption : ProgramOption) {struct args}
  : outcome (gmap string string * ProgramOption) :=
  match args with
  | [] => Returned (result, positionalOption)
  | arg :: rest =>
      match front arg with
      | None => Undefined front_of_empty
      | Some c =>
          if Ascii.eqb c "-"%char then
            match allFlagsTable !! arg with
            | Some opt =>
                if String.eqb (name opt) "help" then
                  exitWithHelp 0 ""
                else if String.eqb (name opt) "version" then
                  Exited 0 (defaultValue opt +:+ nl) ""
                else if negb (empty (name opt)) then
                  match rest with
                  | [] => Exited 1 "" (missingOptionValue arg opt)
                  | value :: rest' =>
                      if Ascii.eqb (c_first value) "-"%char then
                        Exited 1 "" (missingOptionValue arg opt)
                      else
                        result' ← priv.setValue result opt value;
                        processArgs rest' result' positionalOption
                  end
                else
                  result' ← priv.setValue result opt "true";
                  processArgs rest result' positionalOption
            | None => exitWithHelp 1 (unknownOption arg)
            end
          else if negb (empty (name positionalOption)) then
            result' ← priv.setValue result positionalOption arg;
            processArgs rest result' ProgramOption_default
          else exitWithHelp 1 (unexpectedValue arg)
      end
  end.

(** *** The loop as a relation

    The predicates below name the tests of the loop body, and [scan]
    lists its paths one by one: [scan args result positionalOption o]
    says that the loop, started on the tokens [args] with these values
    of its two variables, ends in [o].  [processArgs_scan] shows that
    [scan] and [processArgs] agree. *)

(** [arg.front() == '-']. *)
Definition startsDash (arg : string) : bool :=
  match front arg with
  | Some c => Ascii.eqb c "-"%char
  | None => false
  end.

(** A token with a first character that is not ['-']. *)
Definition bareToken (arg : string) : bool :=
  match front arg with
  | Some c => negb (Ascii.eqb c "-"%char)
  | None => false
  end.

(** The third branch on a registered option: a name that is neither
    reserved nor empty. *)
Definition takesValue (opt : ProgramOption) : bool :=
  negb (String.eqb (name opt) "help")
  && negb (String.eqb (name opt) "version")
  && negb (empty (name opt)).

Inductive scan : list string -> gmap string string -> ProgramOption ->
  outcome (gmap string string * ProgramOption) -> Prop :=
| scan_done r p :
    scan [] r p (Returned (r, p))
| scan_empty_token rest r p :
    scan ("" :: rest) r p (Undefined front_of_empty)
| scan_unknown arg rest r p
    (Hd : startsDash arg = true) (Hu : allFlagsTable !! arg = None) :
    scan (arg :: rest) r p (exitWithHelp 1 (unknownOption arg))
| scan_help arg rest r p opt
    (Hd : startsDash arg = true) (Ht : allFlagsTable !! arg = Some opt)
    (Hh : name opt = "help") :
    scan (arg :: rest) r p (exitWithHelp 0 "")
| scan_version arg rest r p opt
    (Hd : startsDash arg = true) (Ht : allFlagsTable !! arg = Some opt)
    (Hh : name opt = "version") :
    scan (arg :: rest) r p (Exited 0 (defaultValue opt +:+ nl) "")
| scan_value_missing_end arg r p opt
    (Hd : startsDash arg = true) (Ht : allFlagsTable !! arg = Some opt)
    (Hv : takesValue opt = true) :
    scan [arg] r p (Exited 1 "" (missingOptionValue arg opt))
| scan_value_missing_dash arg value rest r p opt
    (Hd : startsDash arg = true) (Ht : allFlagsTable !! arg = Some opt)
    (Hv : takesValue opt = true) (Hdv : startsDash value = true) :
    scan (arg :: value :: rest) r p (Exited 1 "" (missingOptionValue arg opt))
| scan_value_rebound arg value rest r p opt
    (Hd : startsDash arg = true) (Ht : allFlagsTable !! arg = Some opt)
    (Hv : takesValue opt = true) (Hdv : startsDash value = false)
    (Hr : value_at r (name opt) <> "") :
    scan (arg :: value :: rest) r p AssertionFailed
| scan_value_bound arg value rest r p opt o
    (Hd : startsDash arg = true) (Ht : allFlagsTable !! arg = Some opt)
    (Hv : takesValue opt = true) (Hdv : startsDash value = false)
    (Hr : value_at r (name opt) = "")
    (Hrest : scan rest (<[name opt := value]> r) p o) :
    scan (arg :: value :: rest) r p o
| scan_flag_rebound arg rest r p opt
    (Hd : startsDash arg = true) (Ht : allFlagsTable !! arg = Some opt)
    (Hn : name opt = "") (Hr : value_at r "" <> "") :
    scan (arg :: rest) r p AssertionFailed
| scan_flag_bound arg rest r p opt o
    (Hd : startsDash arg = true) (Ht : allFlagsTable !! arg = Some opt)
    (Hn : name opt = "") (Hr : value_at r "" = "")
    (Hrest : scan rest (<["" := "true"]> r) p o) :
    scan (arg :: rest) r p o
| scan_bare_rebound arg rest r p
    (Hb : bareToken arg = true) (Hn : name p <> "")
    (Hr : value_at r (name p) <> "") :
    scan (arg :: rest) r p AssertionFailed
| scan_bare_bound arg rest r p o
    (Hb : bareToken arg = true) (Hn : name p <> "")
    (Hr : value_at r (name p) = "")
    (Hrest : scan rest (<[name p := arg]> r) ProgramOption_default o) :
    scan (arg :: rest) r p o
| scan_bare_unexpected arg rest r p
    (Hb : bareToken arg = true) (Hn : name p = "") :
    scan (arg :: rest) r p (exitWithHelp 1 (unexpectedValue arg)).

(** The tokens of [args] that the loop reads as bare tokens: those that
    do not start with ['-'] and are not taken as the value of an option. *)
Fixpoint bareTokens (args : list string) : list string :=
  match args with
  | [] => []
  | arg :: rest =>
      if startsDash arg then
        match allFlagsTable !! arg with
        | Some opt =>
            if takesValue opt then
              match rest with
              | [] => []
              | _ :: rest' => bareTokens rest'
              end
            else bareTokens rest
        | None => bareTokens rest
        end
      else arg :: bareTokens rest
  end.

(** The check after the loop, and the [return]. *)
Definition checkPositional (st : gmap string string * ProgramOption)
  : outcome (gmap string string) :=
  let '(result, positionalOption) := st in
  if negb (empty (name positionalOption)) then
    let '(old, _) := subscript result (name positionalOption) in
    assert (empty old) (exitWithHelp 1 (missingPositional positionalOption))
  else Returned result.

End Parse.

(** [parse(argc, argv, options)] with [argc = length argv]. *)
Definition parse (win32 : bool) (argv : list string)
  (options : list ProgramOption) : outcome (gmap string string) :=
  t ← buildTables options initialTables;
  st ← processArgs win32 (head argv) options (allFlags t) (tail argv)
         (result t) (positionalOption t);
  checkPositional win32 (head argv) options st.

(** ** Vocabulary of the properties *)

(** The loop of [parse], started on the tables [t], reads the tokens
    [pre] to their end without leaving the function, and its variables
    [result] and [positionalOption] are then [st]. *)
Definition scanned (win32 : bool) (argv : list string)
  (options : list ProgramOption) (t : tables) (pre : list string)
  (st : gmap string string * ProgramOption) : Prop :=
  processArgs win32 (head argv) options (allFlags t) pre
    (result t) (positionalOption t) = Returned st.

(** [k] is one of the flags of the schema. *)
Definition flagOf (options : list ProgramOption) (k : string) : bool :=
  existsb (fun o => bool_decide (k ∈ flags o)) options.

(** [k] is the name of an option of the schema that takes a value. *)
Definition valueNameOf (options : list ProgramOption) (k : string) : bool :=
  existsb (fun o => negb (bool_decide (flags o = []))
                    && takesValue o && String.eqb (name o) k) options.

(** The result map holds, under each registered flag, the default of the
    option that owns it, and nothing else. *)
Definition seeded (t : tables) : Prop :=
  forall k, result t !! k = defaultValue <$> allFlags t !! k.

(** Two result maps that [m[k]] cannot tell apart. *)
Definition sameValues (r r' : gmap string string) : Prop :=
  forall k, value_at r k = value_at r' k.

(** Two ends of the loop that differ at most by result maps that [m[k]]
    cannot tell apart. *)
Definition sameOutcome
  (o o' : outcome (gmap string string * ProgramOption)) : Prop :=
  match o, o' with
  | Returned (r, p), Returned (r', p') => sameValues r r' /\ p = p'
  | _, _ => o = o'
  end.

(** *** Statements over every input

    Each of the next definitions is a property of [parse] quantified
    over every schema and every argument vector.  The code decides token
    by token, from left to right, so what a token causes depends on the
    tokens before it; the properties part of this file refutes each of
    these statements on an input and proves the statement that holds. *)

(** Wherever a flag of an option that takes a value occurs, the value
    read under the option's name at the end is the next token. *)
Definition value_follows_every_occurrence : Prop :=
  forall (win32 : bool) (argv : list string) (options : list ProgramOption)
    (t : tables) (res : gmap string string)
    (pre : list string) (f v : string) (rest : list string)
    (opt : ProgramOption),
    buildTables options initialTables = Returned t ->
    parse win32 argv options = Returned res ->
    tail argv = (pre ++ f :: v :: rest)%list ->
    startsDash f = true -> allFlags t !! f = Some opt ->
    takesValue opt = true ->
    value_at res (name opt) = v.

(** Wherever a flag of an option that takes a value is the last token or
    is followed by a token that starts with ['-'], [parse] exits with
    code 1. *)
Definition missing_value_wherever : Prop :=
  forall (win32 : bool) (argv : list string) (options : list ProgramOption)
    (t : tables) (pre : list string) (f : string) (rest : list string)
    (opt : ProgramOption),
    buildTables options initialTables = Returned t ->
    tail argv = (pre ++ f :: rest)%list ->
    startsDash f = true -> allFlags t !! f = Some opt ->
    takesValue opt = true ->
    rest = [] \/ (exists v rest', rest = v :: rest' /\ startsDash v = true) ->
    exists out err, parse win32 argv options = Exited 1 out err.

(** With a positional option that has no default and no token without a
    leading ['-'], [parse] exits with code 1. *)
Definition positional_missing_whenever_absent : Prop :=
  forall (win32 : bool) (argv : list string) (options : list ProgramOption)
    (t : tables),
    buildTables options initialTables = Returned t ->
    name (positionalOption t) <> "" ->
    defaultValue (positionalOption t) = "" ->
    argv <> [] ->
    Forall (fun tok => startsDash tok = true) (tail argv) ->
    exists out err, parse win32 argv options = Exited 1 out err.

(** Wherever a token starts with ['-'] and is no flag of the schema,
    [parse] exits with code 1. *)
Definition unknown_option_wherever : Prop :=
  forall (win32 : bool) (argv : list string) (options : list ProgramOption)
    (t : tables) (tok : string),
    buildTables options initialTables = Returned t ->
    tok ∈ tail argv -> startsDash tok = true ->
    allFlags t !! tok = None ->
    exists out err, parse win32 argv options = Exited 1 out err.

(** Wherever the input holds an empty token, [parse] calls [front()] on
    an empty string. *)
Definition empty_token_always_undefined : Prop :=
  forall (win32 : bool) (argv : list string) (options : list ProgramOption)
    (t : tables),
    buildTables options initialTables = Returned t ->
    "" ∈ tail argv ->
    parse win32 argv options = Undefined front_of_empty.

(** With a positional option that has a default and an input without a
    bare token, [parse] exits with code 1. *)
Definition positional_default_missing_whenever_omitted : Prop :=
  forall (win32 : bool) (argv : list string) (options : list ProgramOption)
    (t : tables),
    buildTables options initialTables = Returned t ->
    name (positionalOption t) <> "" ->
    defaultValue (positionalOption t) <> "" ->
    argv <> [] ->
    bareTokens (allFlags t) (tail argv) = [] ->
    exists out err, parse win32 argv options = Exited 1 out err.

(** Wherever the loop reaches a flag of an option that takes a value and
    the next token is the empty string, the loop takes that token as the
    value and goes on. *)
Definition empty_value_always_accepted : Prop :=
  forall (win32 : bool) (argv : list string) (options : list ProgramOption)
    (t : tables) (pre : list string) (f : string) (rest : list string)
    (opt : ProgramOption) (r1 : gmap string string) (p1 : ProgramOption),
    buildTables options initialTables = Returned t ->
    tail argv = (pre ++ f :: "" :: rest)%list ->
    scanned win32 argv options t pre (r1, p1) ->
    startsDash f = true -> allFlags t !! f = Some opt ->
    takesValue opt = true ->
    exists r2, scanned win32 argv options t (pre ++ [f; ""]) (r2, p1).

(** ** A schema to run the code on

    The options of the example in the header, with names for the
    positional option and for the option that takes a value. *)

Definition helpOption : ProgramOption :=
  {| name := "help"; flags := ["-h"; "--help"];
     description := "print this help message";
     defaultValue := "Simple program to rename a file" |}.

Definition versionOption : ProgramOption :=
  {| name := "version"; flags := ["-v"; "--version"];
     description := "print program version"; defaultValue := "1.0" |}.

Definition inputOption : ProgramOption :=
  {| name := "input"; flags := [];
     description := "Input file to rename"; defaultValue := "" |}.

Definition outputOption : ProgramOption :=
  {| name := "output"; flags := ["-o"; "--output"];
     description := "Output file name"; defaultValue := "output.txt" |}.

Definition verboseOption : ProgramOption :=
  {| name := ""; flags := ["--verbose"];
     description := "Print more info about what is being done";
     defaultValue := "" |}.

Definition renameOptions : list ProgramOption :=
  [helpOption; versionOption; inputOption; outputOption; verboseOption].

(** The tables [parse] builds from [renameOptions]. *)
Definition renameTables : tables :=
  {| allFlags :=
       <["--verbose" := verboseOption]>
         (<["--output" := outputOption]>
            (<["-o" := outputOption]>
               (<["--version" := versionOption]>
                  (<["-v" := versionOption]>
                     (<["--help" := helpOption]>
                        (<["-h" := helpOption]> ∅))))));
     result :=
       <["--verbose" := ""]>
         (<["--output" := "output.txt"]>
            (<["-o" := "output.txt"]>
               (<["--version" := "1.0"]>
                  (<["-v" := "1.0"]>
                     (<["--help" := "Simple program to rename a file"]>
                        (<["-h" := "Simple program to rename a file"]> ∅))))));
     positionalOption := inputOption |}.

(** The same program with a default for its positional option. *)

Definition inputWithDefault : ProgramOption :=
  {| name := "input"; flags := [];
     description := "Input file to rename"; defaultValue := "in.txt" |}.

Definition defaultedOptions : list ProgramOption :=
  [helpOption; inputWithDefault; outputOption].

Definition defaultedTables : tables :=
  {| allFlags :=
       <["--output" := outputOption]>
         (<["-o" := outputOption]>
            (<["--help" := helpOption]> (<["-h" := helpOption]> ∅)));
     result :=
       <["--output" := "output.txt"]>
         (<["-o" := "output.txt"]>
            (<["--help" := "Simple program to rename a file"]>
               (<["-h" := "Simple program to rename a file"]> ∅)));
     positionalOption := inputWithDefault |}.

(** *** Vocabulary for the texts

    [hasChar c s]: the character [c] occurs in [s].  [occursIn s t]:
    the string [s] occurs in [t]. *)

Fixpoint hasChar (c : ascii) (s : string) : bool :=
  match s with
  | EmptyString => false
  | String a s' => Ascii.eqb a c || hasChar c s'
  end.

Definition occursIn (s t : string) : Prop :=
  exists pre post, t = pre +:+ s +:+ post.

(** The call came back to its caller. *)
Definition returned {A : Type} (o : outcome A) : bool :=
  match o with
  | Returned _ => true
  | _ => false
  end.

(** The options whose names the usage line of [displayHelpMessage]
    lists: a name that is neither empty nor reserved. *)
Definition listedByName (opt : ProgramOption) : bool :=
  negb (String.eqb (name opt) "help")
  && negb (String.eqb (name opt) "version")
  && negb (empty (name opt)).

(** The same program without its positional option. *)

Definition flagsOnlyOptions : list ProgramOption :=
  [helpOption; outputOption; verboseOption].

Definition flagsOnlyTables : tables :=
  {| allFlags :=
       <["--verbose" := verboseOption]>
         (<["--output" := outputOption]>
            (<["-o" := outputOption]>
               (<["--help" := helpOption]> (<["-h" := helpOption]> ∅))));
     result :=
       <["--verbose" := ""]>
         (<["--output" := "output.txt"]>
            (<["-o" := "output.txt"]>
               (<["--help" := "Simple program to rename a file"]>
                  (<["-h" := "Simple program to rename a file"]> ∅))));
     positionalOption := ProgramOption_default |}.

(** * Properties *)

(** ** Strings, maps and outcomes *)

Lemma empty_true (s : string) : empty s = true <-> s = "".
Proof. destruct s; simpl; split; congruence. Qed.

Lemma empty_false (s : string) : empty s = false <-> s <> "".
Proof. destruct s; simpl; split; congruence. Qed.

Lemma startsDash_c_first (s : string) :
  Ascii.eqb (c_first s) "-"%char = startsDash s.
Proof. destruct s; reflexivity. Qed.

Lemma startsDash_front (s : string) :
  startsDash s = true <-> front s = Some "-"%char.
Proof.
  unfold startsDash. destruct (front s) as [c|]; [|split; discriminate].
  rewrite Ascii.eqb_eq. split; congruence.
Qed.

Lemma bareToken_not_dash (s : string) :
  bareToken s = true -> startsDash s = false.
Proof.
  unfold bareToken, startsDash. destruct (front s); [|discriminate].
  intros H. apply negb_true_iff in H. exact H.
Qed.

Lemma bareToken_nonempty (s : string) : bareToken s = true -> s <> "".
Proof. destruct s; [discriminate | discriminate]. Qed.

Lemma token_cases (s : string) :
  s = "" \/ startsDash s = true \/ bareToken s = true.
Proof.
  destruct s as [|c s]; [left; reflexivity | right].
  unfold startsDash, bareToken; simpl. destruct (Ascii.eqb c "-"); auto.
Qed.

Lemma value_at_insert (m : gmap string string) (k : string) (v : string) :
  value_at (<[k := v]> m) k = v.
Proof. unfold value_at. rewrite lookup_insert_eq. reflexivity. Qed.

Lemma value_at_insert_ne (m : gmap string string) (k k' : string) (v : string) :
  k <> k' -> value_at (<[k := v]> m) k' = value_at m k'.
Proof. intros H. unfold value_at. rewrite lookup_insert_ne; auto. Qed.

Lemma value_at_absent (m : gmap string string) (k : string) :
  m !! k = None -> value_at m k = "".
Proof. intros H. unfold value_at. rewrite H. reflexivity. Qed.

(** [setValue] in one equation: the key is written when the value read
    under it is empty, and the [assert] fails otherwise. *)
Lemma setValue_eq (r : gmap string string) (opt : ProgramOption) (v : string) :
  priv.setValue r opt v
  = if empty (value_at r (name opt))
    then Returned (<[name opt := v]> r) else AssertionFailed.
Proof.
  unfold priv.setValue, subscript, value_at.
  destruct (r !! name opt) as [old|]; simpl.
  - destruct (empty old); reflexivity.
  - rewrite insert_insert_eq. reflexivity.
Qed.

Lemma takesValue_name (opt : ProgramOption) :
  takesValue opt = true <->
  name opt <> "help" /\ name opt <> "version" /\ name opt <> "".
Proof.
  unfold takesValue. rewrite !andb_true_iff, !negb_true_iff.
  rewrite !String.eqb_neq, empty_false. tauto.
Qed.

(** ** The loop of [parse] *)

Section Scan.

Variable win32 : bool.
Variable argv0 : option string.
Variable options : list ProgramOption.
Variable tbl : gmap string ProgramOption.

Local Abbreviation loop := (processArgs win32 argv0 options tbl).
Local Abbreviation run := (scan win32 argv0 options tbl).

Lemma processArgs_cons (arg : string) (rest : list string)
  (r : gmap string string) (p : ProgramOption) :
  loop (arg :: rest) r p =
  match front arg with
  | None => Undefined front_of_empty
  | Some c =>
      if Ascii.eqb c "-"%char then
        match tbl !! arg with
        | Some opt =>
            if String.eqb (name opt) "help" then
              exitWithHelp win32 argv0 options 0 ""
            else if String.eqb (name opt) "version" then
              Exited 0 (defaultValue opt +:+ nl) ""
            else if negb (empty (name opt)) then
              match rest with
              | [] => Exited 1 "" (missingOptionValue arg opt)
              | value :: rest' =>
                  if Ascii.eqb (c_first value) "-"%char then
                    Exited 1 "" (missingOptionValue arg opt)
                  else
                    result' ← priv.setValue r opt value;
                    loop rest' result' p
              end
            else
              result' ← priv.setValue r opt "true";
              loop rest result' p
        | None => exitWithHelp win32 argv0 options 1 (unknownOption arg)
        end
      else if negb (empty (name p)) then
        result' ← priv.setValue r p arg;
        loop rest result' ProgramOption_default
      else exitWithHelp win32 argv0 options 1 (unexpectedValue arg)
  end.
Proof. reflexivity. Qed.

Lemma processArgs_dash (arg : string) (rest : list string)
  (r : gmap string string) (p : ProgramOption) :
  startsDash arg = true ->
  loop (arg :: rest) r p =
  match tbl !! arg with
  | Some opt =>
      if String.eqb (name opt) "help" then
        exitWithHelp win32 argv0 options 0 ""
      else if String.eqb (name opt) "version" then
        Exited 0 (defaultValue opt +:+ nl) ""
      else if negb (empty (name opt)) then
        match rest with
        | [] => Exited 1 "" (missingOptionValue arg opt)
        | value :: rest' =>
            if startsDash value then
              Exited 1 "" (missingOptionValue arg opt)
            else
              result' ← priv.setValue r opt value;
              loop rest' result' p
        end
      else
        result' ← priv.setValue r opt "true";
        loop rest result' p
  | None => exitWithHelp win32 argv0 options 1 (unknownOption arg)
  end.
Proof.
  intros Hd. rewrite processArgs_cons.
  apply startsDash_front in Hd. rewrite Hd, Ascii.eqb_refl.
  destruct (tbl !! arg) as [opt|]; [|reflexivity].
  destruct rest as [|value rest']; [reflexivity|].
  rewrite startsDash_c_first. reflexivity.
Qed.

Lemma processArgs_bare (arg : string) (rest : list string)
  (r : gmap string string) (p : ProgramOption) :
  bareToken arg = true ->
  loop (arg :: rest) r p =
  if negb (empty (name p)) then
    result' ← priv.setValue r p arg;
    loop rest result' ProgramOption_default
  else exitWithHelp win32 argv0 options 1 (unexpectedValue arg).
Proof.
  intros Hb. rewrite processArgs_cons. unfold bareToken in Hb.
  destruct (front arg) as [c|]; [|discriminate].
  apply negb_true_iff in Hb. rewrite Hb. reflexivity.
Qed.

(** A value option found in the table passes the two reserved-name tests. *)
Lemma takesValue_tests (opt : ProgramOption) :
  takesValue opt = true ->
  String.eqb (name opt) "help" = false
  /\ String.eqb (name opt) "version" = false
  /\ empty (name opt) = false.
Proof.
  unfold takesValue. rewrite !andb_true_iff, !negb_true_iff. tauto.
Qed.

(** Every derivation of [scan] is a run of [processArgs]. *)
Lemma scan_processArgs (args : list string) (r : gmap string string)
  (p : ProgramOption) (o : outcome (gmap string string * ProgramOption)) :
  run args r p o -> loop args r p = o.
Proof.
  induction 1 as
    [ r p | rest r p | arg rest r p Hd Hu | arg rest r p opt Hd Ht Hh
    | arg rest r p opt Hd Ht Hv | arg r p opt Hd Ht Hv
    | arg v rest r p opt Hd Ht Hv Hdv | arg v rest r p opt Hd Ht Hv Hdv Hr
    | arg v rest r p opt o Hd Ht Hv Hdv Hr _ IH
    | arg rest r p opt Hd Ht Hn Hr | arg rest r p opt o Hd Ht Hn Hr _ IH
    | arg rest r p Hb Hn Hr | arg rest r p o Hb Hn Hr _ IH
    | arg rest r p Hb Hn ];
    try reflexivity;
    try rewrite (processArgs_dash _ _ _ _ Hd); try rewrite Ht; try rewrite Hu;
    try (rewrite (processArgs_bare _ _ _ _ Hb));
    try (apply takesValue_tests in Hv as (-> & -> & ->); simpl);
    try rewrite Hdv; try rewrite setValue_eq.
  all: try reflexivity.
  all: repeat match goal with
         | H : name _ = _ |- _ => rewrite ?H in *; clear H
         | H : value_at _ _ = "" |- _ => apply empty_true in H; rewrite ?H
         | H : value_at _ _ <> "" |- _ => apply empty_false in H; rewrite ?H
         | H : name _ <> "" |- _ => apply empty_false in H; rewrite ?H
         end; simpl; try reflexivity; try assumption.
Qed.

(** Every run of [processArgs] has a derivation. *)
Lemma processArgs_run (n : nat) :
  forall (args : list string) (r : gmap string string) (p : ProgramOption),
    (List.length args <= n)%nat -> run args r p (loop args r p).
Proof.
  induction n as [|n IH]; intros args r p Hlen.
  - destruct args; [constructor | simpl in Hlen; lia].
  - destruct args as [|arg rest]; [constructor|].
    simpl in Hlen.
    destruct (token_cases arg) as [-> | [Hd | Hb]]; [constructor | |].
    + rewrite (processArgs_dash _ _ _ _ Hd).
      destruct (tbl !! arg) as [opt|] eqn:Ht; [|by constructor].
      destruct (String.eqb (name opt) "help") eqn:Eh.
      { apply String.eqb_eq in Eh. by eapply scan_help. }
      destruct (String.eqb (name opt) "version") eqn:Ev.
      { apply String.eqb_eq in Ev. by eapply scan_version. }
      destruct (empty (name opt)) eqn:Ee; simpl.
      * apply empty_true in Ee. rewrite setValue_eq, Ee. simpl.
        destruct (empty (value_at r "")) eqn:Er.
        -- apply empty_true in Er. eapply scan_flag_bound; eauto.
           apply IH. lia.
        -- apply empty_false in Er. eapply scan_flag_rebound; eauto.
      * assert (Hv : takesValue opt = true).
        { unfold takesValue. rewrite Eh, Ev, Ee. reflexivity. }
        destruct rest as [|value rest']; [by constructor|].
        destruct (startsDash value) eqn:Hdv; [by constructor|].
        rewrite setValue_eq.
        destruct (empty (value_at r (name opt))) eqn:Er.
        -- apply empty_true in Er. eapply scan_value_bound; eauto.
           apply IH. simpl in Hlen. lia.
        -- apply empty_false in Er. eapply scan_value_rebound; eauto.
    + rewrite (processArgs_bare _ _ _ _ Hb).
      destruct (empty (name p)) eqn:En; simpl.
      * apply empty_true in En. by constructor.
      * apply empty_false in En. rewrite setValue_eq.
        destruct (empty (value_at r (name p))) eqn:Er.
        -- apply empty_true in Er. eapply scan_bare_bound; eauto.
           apply IH. lia.
        -- apply empty_false in Er. by eapply scan_bare_rebound.
Qed.

(** [scan] is the graph of [processArgs]. *)
Lemma processArgs_scan (args : list string) (r : gmap string string)
  (p : ProgramOption) (o : outcome (gmap string string * ProgramOption)) :
  run args r p o <-> loop args r p = o.
Proof.
  split; [apply scan_processArgs|].
  intros <-. by eapply processArgs_run.
Qed.

Lemma exitWithHelp_not_returned {A : Type} (code : Z) (err : string) (a : A) :
  exitWithHelp win32 argv0 options code err <> Returned a.
Proof. unfold exitWithHelp. destruct argv0; discriminate. Qed.

Lemma exitWithHelp_not_front {A : Type} (code : Z) (err : string) :
  @exitWithHelp win32 argv0 options A code err <> Undefined front_of_empty.
Proof. unfold exitWithHelp. destruct argv0; discriminate. Qed.

(** Inversion of a run that returns: only the paths that go round the
    loop remain. *)
Ltac returned_run H :=
  let o := fresh "o" in
  let E := fresh "E" in
  match type of H with
  | scan _ _ _ _ _ _ _ ?res =>
      remember res as o eqn:E; revert E; induction H; intros E;
      try discriminate E;
      try (exfalso; exact (exitWithHelp_not_returned _ _ _ E))
  end.

(** The loop can be cut after a prefix that it reads to the end. *)
Lemma scan_app (pre toks : list string) (r r1 : gmap string string)
  (p p1 : ProgramOption) (o : outcome (gmap string string * ProgramOption)) :
  run pre r p (Returned (r1, p1)) -> run toks r1 p1 o ->
  run (pre ++ toks) r p o.
Proof.
  intros H Ho. returned_run H.
  - injection E as -> ->. exact Ho.
  - simpl. eapply scan_value_bound; eauto.
  - simpl. eapply scan_flag_bound; eauto.
  - simpl. eapply scan_bare_bound; eauto.
Qed.

Lemma processArgs_app (pre toks : list string) (r r1 : gmap string string)
  (p p1 : ProgramOption) :
  loop pre r p = Returned (r1, p1) ->
  loop (pre ++ toks) r p = loop toks r1 p1.
Proof.
  intros H. apply processArgs_scan. eapply scan_app.
  - apply processArgs_scan. exact H.
  - apply processArgs_scan. reflexivity.
Qed.

(** A key that holds a non-empty value keeps it: [setValue] only writes
    under a key whose value is empty. *)
Lemma scan_stable (toks : list string) (r r' : gmap string string)
  (p p' : ProgramOption) (k : string) :
  run toks r p (Returned (r', p')) ->
  value_at r k <> "" -> value_at r' k = value_at r k.
Proof.
  intros H. returned_run H; intros Hk.
  - injection E as -> ->. reflexivity.
  - assert (name opt <> k) by congruence.
    rewrite IHscan; auto; rewrite value_at_insert_ne; auto.
  - assert ("" <> k) by congruence.
    rewrite IHscan; auto; rewrite value_at_insert_ne; auto.
  - assert (name p <> k) by congruence.
    rewrite IHscan; auto; rewrite value_at_insert_ne; auto.
Qed.

Lemma bareTokens_dash_value (arg value : string) (rest : list string)
  (opt : ProgramOption) :
  startsDash arg = true -> tbl !! arg = Some opt -> takesValue opt = true ->
  bareTokens tbl (arg :: value :: rest) = bareTokens tbl rest.
Proof. intros Hd Ht Hv. simpl. rewrite Hd, Ht, Hv. reflexivity. Qed.

Lemma bareTokens_dash_flag (arg : string) (rest : list string)
  (opt : ProgramOption) :
  startsDash arg = true -> tbl !! arg = Some opt -> name opt = "" ->
  bareTokens tbl (arg :: rest) = bareTokens tbl rest.
Proof.
  intros Hd Ht Hn. simpl. rewrite Hd, Ht.
  unfold takesValue. rewrite Hn. reflexivity.
Qed.

Lemma bareTokens_bare (arg : string) (rest : list string) :
  bareToken arg = true ->
  bareTokens tbl (arg :: rest) = arg :: bareTokens tbl rest.
Proof.
  intros Hb. simpl. rewrite (bareToken_not_dash _ Hb). reflexivity.
Qed.

(** What a run that returns did with the positional option: either it
    met no bare token and left [positionalOption] alone, or it met
    exactly one, bound it under the positional name and cleared
    [positionalOption]. *)
Lemma scan_positional (toks : list string) (r r' : gmap string string)
  (p p' : ProgramOption) :
  run toks r p (Returned (r', p')) ->
  (bareTokens tbl toks = [] /\ p' = p)
  \/ (exists t, bareTokens tbl toks = [t] /\ bareToken t = true
                /\ name p <> "" /\ p' = ProgramOption_default
                /\ value_at r' (name p) = t).
Proof.
  intros H. returned_run H.
  - injection E as -> ->. left. split; reflexivity.
  - rewrite (bareTokens_dash_value _ _ _ _ Hd Ht Hv). auto.
  - rewrite (bareTokens_dash_flag _ _ _ Hd Ht Hn). auto.
  - rewrite (bareTokens_bare _ _ Hb). right. exists arg.
    destruct (IHscan E) as [[Hb' ->] | (t & _ & _ & Hn' & _)];
      [|exfalso; apply Hn'; reflexivity].
    rewrite Hb'. repeat split; auto.
    subst o. erewrite scan_stable by (eassumption || (rewrite value_at_insert; by apply bareToken_nonempty)).
    apply value_at_insert.
Qed.

Lemma scan_positional_kept (toks : list string) (r r' : gmap string string)
  (p p' : ProgramOption) :
  run toks r p (Returned (r', p')) -> name p' <> "" ->
  p' = p /\ bareTokens tbl toks = [].
Proof.
  intros H Hn.
  destruct (scan_positional _ _ _ _ _ H) as [[Hb ->] | (t & _ & _ & _ & -> & _)].
  - split; [reflexivity | exact Hb].
  - exfalso. apply Hn. reflexivity.
Qed.

(** A token that starts with ['-'] is never taken as a value: a run that
    returns has read everything before it and starts an iteration on it. *)
Lemma scan_split_dash (toks : list string) (r : gmap string string)
  (p : ProgramOption) (st : gmap string string * ProgramOption) :
  run toks r p (Returned st) ->
  forall (pre : list string) (f : string) (rest : list string),
    toks = (pre ++ f :: rest)%list -> startsDash f = true ->
    exists r1 p1, run pre r p (Returned (r1, p1))
                  /\ run (f :: rest) r1 p1 (Returned st).
Proof.
  intros H. returned_run H; intros pre f rest0 Heq Hf.
  - destruct pre; discriminate Heq.
  - destruct pre as [|a [|b pre]]; simpl in Heq.
    + exists r, p. split; [constructor|]. rewrite <- Heq.
      eapply scan_value_bound; eauto.
    + injection Heq as -> -> ->. congruence.
    + injection Heq as -> -> ->.
      destruct (IHscan E pre f rest0 eq_refl Hf) as (r1 & p1 & H1 & H2).
      exists r1, p1. split; [|exact H2]. eapply scan_value_bound; eauto.
  - destruct pre as [|a pre]; simpl in Heq.
    + exists r, p. split; [constructor|]. rewrite <- Heq.
      eapply scan_flag_bound; eauto.
    + injection Heq as -> ->.
      destruct (IHscan E pre f rest0 eq_refl Hf) as (r1 & p1 & H1 & H2).
      exists r1, p1. split; [|exact H2]. eapply scan_flag_bound; eauto.
  - destruct pre as [|a pre]; simpl in Heq.
    + exists r, p. split; [constructor|]. rewrite <- Heq.
      eapply scan_bare_bound; eauto.
    + injection Heq as -> ->.
      destruct (IHscan E pre f rest0 eq_refl Hf) as (r1 & p1 & H1 & H2).
      exists r1, p1. split; [|exact H2]. eapply scan_bare_bound; eauto.
Qed.

(** The keys the loop writes are the empty name (for a flag without a
    name), the names of the options that take a value, and the name of
    the positional option when a bare token is bound.  Any other key
    keeps its value. *)
Lemma scan_untouched (toks : list string) (r r' : gmap string string)
  (p p' : ProgramOption) (k : string) :
  run toks r p (Returned (r', p')) ->
  k <> "" ->
  (forall f opt, tbl !! f = Some opt -> takesValue opt = true ->
                 name opt <> k) ->
  k <> name p \/ name p' <> "" ->
  value_at r' k = value_at r k.
Proof.
  intros H Hk Hopts. returned_run H; intros Hp.
  - injection E as -> ->. reflexivity.
  - rewrite IHscan; auto. apply value_at_insert_ne. eauto.
  - rewrite IHscan; auto. apply value_at_insert_ne. congruence.
  - subst o.
    assert (Hkp : name p <> k).
    { destruct Hp as [Hp | Hp]; [congruence|].
      destruct (scan_positional_kept _ _ _ _ _ H Hp) as [-> _].
      exfalso. apply Hp. reflexivity. }
    rewrite IHscan; auto. apply value_at_insert_ne. exact Hkp.
Qed.

(** The same for the entry itself: the loop does not even create it. *)
Lemma scan_untouched_lookup (toks : list string) (r r' : gmap string string)
  (p p' : ProgramOption) (k : string) :
  run toks r p (Returned (r', p')) ->
  k <> "" ->
  (forall f opt, tbl !! f = Some opt -> takesValue opt = true ->
                 name opt <> k) ->
  k <> name p ->
  r' !! k = r !! k.
Proof.
  intros H Hk Hopts. returned_run H; intros Hp.
  - injection E as -> ->. reflexivity.
  - rewrite IHscan; auto. apply lookup_insert_ne. eauto.
  - rewrite IHscan; auto. apply lookup_insert_ne. congruence.
  - rewrite IHscan; auto. apply lookup_insert_ne. congruence.
Qed.

(** The loop calls [front()] on an empty string exactly when it reads
    everything before an empty token and starts an iteration on it. *)
Lemma scan_front_of_empty (toks : list string) (r : gmap string string)
  (p : ProgramOption) :
  run toks r p (Undefined front_of_empty) <->
  exists pre rest st, toks = (pre ++ "" :: rest)%list /\ run pre r p (Returned st).
Proof.
  split.
  - intros H. remember (Undefined front_of_empty) as o eqn:E.
    revert E. induction H; intros E; try discriminate E;
      try (exfalso; exact (exitWithHelp_not_front _ _ E)).
    + exists [], rest, (r, p). split; [reflexivity | constructor].
    + destruct (IHscan E) as (pre & rest' & st & -> & Hpre).
      exists (arg :: value :: pre), rest', st. split; [reflexivity|].
      eapply scan_value_bound; eauto.
    + destruct (IHscan E) as (pre & rest' & st & -> & Hpre).
      exists (arg :: pre), rest', st. split; [reflexivity|].
      eapply scan_flag_bound; eauto.
    + destruct (IHscan E) as (pre & rest' & st & -> & Hpre).
      exists (arg :: pre), rest', st. split; [reflexivity|].
      eapply scan_bare_bound; eauto.
  - intros (pre & rest & [r1 p1] & -> & Hpre).
    eapply scan_app; [exact Hpre | constructor].
Qed.

(** Bare tokens do not start with ['-']. *)
Lemma bareTokens_bare_only (n : nat) :
  forall toks : list string,
    (List.length toks <= n)%nat ->
    forall b, b ∈ bareTokens tbl toks -> b ∈ toks /\ startsDash b = false.
Proof.
  induction n as [|n IH]; intros toks Hlen b Hb.
  - destruct toks; [by apply elem_of_nil in Hb | simpl in Hlen; lia].
  - destruct toks as [|arg rest]; [by apply elem_of_nil in Hb|].
    simpl in Hlen, Hb. destruct (startsDash arg) eqn:Hd.
    + assert (Hrest : b ∈ bareTokens tbl rest -> b ∈ arg :: rest
                      /\ startsDash b = false).
      { intros H. apply IH in H as [H1 H2]; [|lia].
        split; [apply elem_of_cons; by right | exact H2]. }
      destruct (tbl !! arg) as [opt|]; [|auto].
      destruct (takesValue opt); [|auto].
      destruct rest as [|v rest']; [by apply elem_of_nil in Hb|].
      apply IH in Hb as [H1 H2]; [|simpl in Hlen; lia].
      split; [|exact H2].
      apply elem_of_cons; right; apply elem_of_cons; by right.
    + apply elem_of_cons in Hb as [-> | Hb].
      * split; [apply elem_of_cons; by left | exact Hd].
      * apply IH in Hb as [H1 H2]; [|lia].
        split; [apply elem_of_cons; by right | exact H2].
Qed.

Lemma bareTokens_all_dash (toks : list string) :
  Forall (fun tok => startsDash tok = true) toks -> bareTokens tbl toks = [].
Proof.
  intros Hall. destruct (bareTokens tbl toks) as [|b l] eqn:E; [reflexivity|].
  assert (Hb : b ∈ bareTokens tbl toks) by (rewrite E; apply elem_of_cons; by left).
  apply (bareTokens_bare_only (List.length toks)) in Hb as [Hin Hd];
    [|lia].
  rewrite Forall_forall in Hall. rewrite (Hall b Hin) in Hd. discriminate.
Qed.

(** When every token starts with ['-'] no option receives a value, and
    the loop writes under the empty name only. *)
Lemma scan_all_dash (toks : list string) (r r' : gmap string string)
  (p p' : ProgramOption) (k : string) :
  run toks r p (Returned (r', p')) ->
  Forall (fun tok => startsDash tok = true) toks ->
  k <> "" -> value_at r' k = value_at r k.
Proof.
  intros H. returned_run H; intros Hall Hk.
  - injection E as -> ->. reflexivity.
  - apply Forall_cons in Hall as [_ Hall].
    apply Forall_cons in Hall as [Hv' _]. congruence.
  - apply Forall_cons in Hall as [_ Hall].
    rewrite IHscan; auto. apply value_at_insert_ne. congruence.
  - apply Forall_cons in Hall as [Ha _].
    rewrite (bareToken_not_dash _ Hb) in Ha. discriminate.
Qed.

End Scan.

(** ** The tables built before the loop *)

(** A run of [registerFlags] that returns added [names], all new and all
    different, with [opt] in one map and its default in the other. *)
Lemma registerFlags_returned (opt : ProgramOption) (names : list string) :
  forall (a a' : gmap string ProgramOption) (r r' : gmap string string),
    registerFlags opt names a r = Returned (a', r') ->
    (forall k, k ∈ names -> a !! k = None)
    /\ (forall k, a' !! k = if decide (k ∈ names) then Some opt else a !! k)
    /\ (forall k, r' !! k = if decide (k ∈ names)
                           then Some (defaultValue opt) else r !! k).
Proof.
  induction names as [|f names IH]; intros a a' r r' H; simpl in H.
  - injection H as <- <-. split; [|split]; intros k.
    + intros Hk. by apply elem_of_nil in Hk.
    + destruct (decide (k ∈ [])) as [Hk|]; [by apply elem_of_nil in Hk | reflexivity].
    + destruct (decide (k ∈ [])) as [Hk|]; [by apply elem_of_nil in Hk | reflexivity].
  - unfold assert in H. case_bool_decide as Hf; [|discriminate H].
    apply IH in H as (Hnew & Ha & Hr).
    assert (Hfn : f ∉ names).
    { intros Hin. specialize (Hnew f Hin).
      rewrite lookup_insert_eq in Hnew. discriminate. }
    split; [|split]; intros k.
    + intros Hk. apply elem_of_cons in Hk as [-> | Hk]; [exact Hf|].
      specialize (Hnew k Hk).
      destruct (decide (f = k)) as [<- | Hne]; [exact Hf|].
      rewrite lookup_insert_ne in Hnew; auto.
    + rewrite Ha. destruct (decide (k ∈ names)) as [Hk | Hk].
      * rewrite decide_True; [reflexivity | apply elem_of_cons; by right].
      * destruct (decide (f = k)) as [<- | Hne].
        -- rewrite lookup_insert_eq.
           rewrite decide_True; [reflexivity | apply elem_of_cons; by left].
        -- rewrite lookup_insert_ne by exact Hne.
           rewrite decide_False; [reflexivity|].
           intros Hin. apply elem_of_cons in Hin as [-> | Hin]; eauto.
    + rewrite Hr. destruct (decide (k ∈ names)) as [Hk | Hk].
      * rewrite decide_True; [reflexivity | apply elem_of_cons; by right].
      * destruct (decide (f = k)) as [<- | Hne].
        -- rewrite lookup_insert_eq.
           rewrite decide_True; [reflexivity | apply elem_of_cons; by left].
        -- rewrite lookup_insert_ne by exact Hne.
           rewrite decide_False; [reflexivity|].
           intros Hin. apply elem_of_cons in Hin as [-> | Hin]; eauto.
Qed.

(** What a run of [buildTables] that returns has built. *)
Lemma buildTables_returned (options : list ProgramOption) :
  forall t0 t : tables,
    buildTables options t0 = Returned t ->
    (forall k o, allFlags t !! k = Some o <->
                 allFlags t0 !! k = Some o \/ (o ∈ options /\ k ∈ flags o))
    /\ (seeded t0 -> seeded t)
    /\ (positionalOption t = positionalOption t0
        \/ (positionalOption t ∈ options
            /\ isPositional (positionalOption t) = true)).
Proof.
  induction options as [|opt options IH]; intros t0 t H; simpl in H.
  - injection H as <-. split; [|split]; auto.
    intros k o. split; [auto | intros [Hk | [Ho _]]; [exact Hk | by apply elem_of_nil in Ho]].
  - destruct (registerFlags opt (flags opt) (allFlags t0) (result t0))
      as [[a1 r1] | | |] eqn:Hreg; simpl in H; try discriminate H.
    apply registerFlags_returned in Hreg as (Hnew & Ha & Hr).
    assert (Hstep : exists p1,
      buildTables options
        {| allFlags := a1; result := r1; positionalOption := p1 |}
      = Returned t
      /\ (p1 = positionalOption t0 \/ (p1 = opt /\ isPositional opt = true))).
    { destruct (isPositional opt) eqn:Hpos.
      - unfold assert in H.
        destruct (empty (name (positionalOption t0))); [|discriminate H].
        exists opt. auto.
      - exists (positionalOption t0). auto. }
    clear H. destruct Hstep as (p1 & H & Hp1).
    apply IH in H as (Hall & Hseed & Hpos); simpl in *.
    split; [|split].
    + intros k o. rewrite Hall, Ha. split.
      * intros [Hk | [Ho Hk]].
        -- destruct (decide (k ∈ flags opt)) as [Hin|]; [|auto].
           injection Hk as <-. right. split; [apply elem_of_cons; by left | exact Hin].
        -- right. split; [apply elem_of_cons; by right | exact Hk].
      * intros [Hk | [Ho Hk]].
        -- left. rewrite decide_False; [exact Hk|].
           intros Hin. rewrite (Hnew _ Hin) in Hk. discriminate.
        -- apply elem_of_cons in Ho as [-> | Ho]; [|right; auto].
           left. rewrite decide_True; auto.
    + intros Hs0. apply Hseed. intros k. simpl. rewrite Hr, Ha.
      destruct (decide (k ∈ flags opt)); [reflexivity | apply Hs0].
    + destruct Hpos as [-> | [Hin Hp]].
      * destruct Hp1 as [-> | [-> Hp]]; [auto|].
        right. split; [apply elem_of_cons; by left | exact Hp].
      * right. split; [apply elem_of_cons; by right | exact Hp].
Qed.

(** The same from the empty tables [parse] starts with. *)
Lemma buildTables_initial (options : list ProgramOption) (t : tables) :
  buildTables options initialTables = Returned t ->
  (forall k o, allFlags t !! k = Some o <-> o ∈ options /\ k ∈ flags o)
  /\ seeded t
  /\ (name (positionalOption t) = ""
      \/ (positionalOption t ∈ options
          /\ isPositional (positionalOption t) = true)).
Proof.
  intros H. apply buildTables_returned in H as (Hall & Hseed & Hpos).
  split; [|split].
  - intros k o. rewrite Hall. simpl. rewrite lookup_empty.
    split; [intros [Hk | Hk]; [discriminate | exact Hk] | auto].
  - apply Hseed. intros k. simpl. rewrite !lookup_empty. reflexivity.
  - destruct Hpos as [-> | Hpos]; [left; reflexivity | right; exact Hpos].
Qed.

Example renameOptions_constructed :
  ProgramOption_named "help" "Simple program to rename a file" ""
    = Returned helpOption
  /\ ProgramOption_named "version" "1.0" "" = Returned versionOption
  /\ ProgramOption_named "input" "Input file to rename" ""
     = Returned inputOption
  /\ ProgramOption_flagged ["-o"; "--output"; "output"]
       "Output file name" "output.txt" = Returned outputOption
  /\ ProgramOption_flagged ["--verbose"]
       "Print more info about what is being done" "" = Returned verboseOption.
Proof. repeat split; reflexivity. Qed.

Example renameTables_built :
  buildTables renameOptions initialTables = Returned renameTables.
Proof. reflexivity. Qed.

(** ** [parse] *)

Section ParseFacts.

Variable win32 : bool.
Variable argv : list string.
Variable options : list ProgramOption.
Variable t : tables.
Hypothesis Hbuild : buildTables options initialTables = Returned t.

Local Abbreviation loop :=
  (processArgs win32 (head argv) options (allFlags t)).

(** Once the first tokens have been read, [parse] goes on from there. *)
Lemma parse_resume (pre toks : list string) (r1 : gmap string string)
  (p1 : ProgramOption) :
  tail argv = (pre ++ toks)%list ->
  scanned win32 argv options t pre (r1, p1) ->
  parse win32 argv options
  = (st ← loop toks r1 p1; checkPositional win32 (head argv) options st).
Proof.
  intros Hargv Hpre. unfold parse. rewrite Hbuild. simpl.
  rewrite Hargv. erewrite processArgs_app by exact Hpre. reflexivity.
Qed.

(** When there is a token to read, [argv[0]] is there too. *)
Lemma head_of_tail (pre : list string) (tok : string) (rest : list string) :
  tail argv = (pre ++ tok :: rest)%list -> exists a, head argv = Some a.
Proof.
  destruct argv as [|a l]; simpl; [|eauto].
  intros H. destruct pre; discriminate H.
Qed.

Lemma exitWithHelp_head {A : Type} (a : string) (code : Z) (err : string) :
  head argv = Some a ->
  @exitWithHelp win32 (head argv) options A code err
  = Exited code (priv.displayHelpMessage win32 a options) err.
Proof. intros ->. reflexivity. Qed.

(** A flag of an option of the schema is in the table, with its option. *)
Lemma registered (o : ProgramOption) (f : string) :
  o ∈ options -> f ∈ flags o -> allFlags t !! f = Some o.
Proof.
  intros Ho Hf. apply buildTables_initial in Hbuild as (Hall & _ & _).
  apply Hall. auto.
Qed.

Lemma flagOf_false (k : string) :
  flagOf options k = false <-> allFlags t !! k = None.
Proof.
  apply buildTables_initial in Hbuild as (Hall & _ & _).
  unfold flagOf. split.
  - intros H. destruct (allFlags t !! k) as [o|] eqn:E; [|reflexivity].
    apply Hall in E as [Ho Hk].
    assert (existsb (fun o => bool_decide (k ∈ flags o)) options = true)
      as Hex; [|congruence].
    apply existsb_exists. exists o. split.
    + by apply list_elem_of_In.
    + by apply bool_decide_eq_true.
  - intros H. apply not_true_is_false. intros Hex.
    apply existsb_exists in Hex as (o & Ho & Hk).
    apply bool_decide_eq_true in Hk. apply list_elem_of_In in Ho.
    rewrite (proj2 (Hall k o)) in H by auto. discriminate.
Qed.

Lemma valueNameOf_false (k : string) (f : string) (o : ProgramOption) :
  valueNameOf options k = false ->
  allFlags t !! f = Some o -> takesValue o = true -> name o <> k.
Proof.
  intros H Hf Hv Hk. apply buildTables_initial in Hbuild as (Hall & _ & _).
  apply Hall in Hf as [Ho Hfo].
  assert (valueNameOf options k = true) as Hex; [|congruence].
  apply existsb_exists. exists o. split; [by apply list_elem_of_In|].
  rewrite Hv, Hk, String.eqb_refl, !andb_true_r.
  apply negb_true_iff, bool_decide_eq_false.
  intros E. rewrite E in Hfo. by apply elem_of_nil in Hfo.
Qed.

(** The default values go under the flags, and only there. *)
Lemma seeded_value (k : string) :
  flagOf options k = false -> value_at (result t) k = "".
Proof.
  intros H. apply flagOf_false in H.
  apply buildTables_initial in Hbuild as (_ & Hseed & _).
  apply value_at_absent. rewrite Hseed, H. reflexivity.
Qed.

End ParseFacts.

(** ** The claims *)

(** *** Options that take a value *)

(** Claim C3, as the code has it.  When the loop of [parse] reaches a
    flag of an option that takes a value (it has read every token before
    it) and this flag is the last token or is followed by a token that
    starts with ['-'], [parse] writes the "missing value" line for that
    flag to the error stream, writes nothing to the output stream, and
    exits with code 1; no map is returned, so no value is bound. *)
Theorem missing_value_when_reached
  (win32 : bool) (argv : list string) (options : list ProgramOption)
  (t : tables) (pre : list string) (f : string) (rest : list string)
  (opt : ProgramOption) (st : gmap string string * ProgramOption) :
  buildTables options initialTables = Returned t ->
  tail argv = (pre ++ f :: rest)%list ->
  scanned win32 argv options t pre st ->
  startsDash f = true -> allFlags t !! f = Some opt ->
  takesValue opt = true ->
  rest = [] \/ (exists v rest', rest = v :: rest' /\ startsDash v = true) ->
  parse win32 argv options
  = Exited 1 ""
      ("Error: missing value for option '" +:+ f +:+ "' ("
         +:+ description opt +:+ ")." +:+ nl).
Proof.
  intros Hbuild Hargv Hpre Hd Ht Hv Hrest. destruct st as [r1 p1].
  rewrite (parse_resume _ _ _ _ Hbuild _ _ _ _ Hargv Hpre).
  rewrite (processArgs_dash _ _ _ _ _ _ _ _ Hd), Ht.
  apply takesValue_tests in Hv as (-> & -> & ->). simpl.
  destruct Hrest as [-> | (v & rest' & -> & ->)]; reflexivity.
Qed.

Lemma missing_value_when_reached_witness :
  parse false ["prog"; "a.txt"; "-o"] renameOptions
  = Exited 1 ""
      ("Error: missing value for option '-o' (Output file name)." +:+ nl).
Proof.
  apply (missing_value_when_reached false ["prog"; "a.txt"; "-o"]
           renameOptions renameTables ["a.txt"] "-o" [] outputOption
           (<["input" := "a.txt"]> (result renameTables),
            ProgramOption_default)).
  - reflexivity.
  - reflexivity.
  - reflexivity.
  - reflexivity.
  - reflexivity.
  - reflexivity.
  - left. reflexivity.
Defined.

(** Claim C3 as it is stated fails: a help flag before the flag ends the
    process with code 0. *)
Lemma missing_value_wherever_fails : ~ missing_value_wherever.
Proof.
  intros H.
  destruct (H false ["prog"; "-h"; "-o"] renameOptions renameTables
              ["-h"] "-o" [] outputOption) as (out & err & E);
    try reflexivity; [left; reflexivity|].
  discriminate E.
Qed.

(** *** The reserved options *)

(** Claim C4.  When the loop of [parse] reaches a flag of the option
    named [help] it writes the help message to the output stream, and
    when it reaches a flag of the option named [version] it writes the
    version string and a line feed; in both cases nothing goes to the
    error stream and the process exits with code 0, whatever the tokens
    after the flag. *)
Theorem help_version_short_circuit
  (win32 : bool) (argv : list string) (options : list ProgramOption)
  (t : tables) (pre : list string) (f : string) (rest : list string)
  (o : ProgramOption) (st : gmap string string * ProgramOption) :
  buildTables options initialTables = Returned t ->
  o ∈ options -> name o = "help" \/ name o = "version" ->
  f ∈ flags o -> startsDash f = true ->
  tail argv = (pre ++ f :: rest)%list ->
  scanned win32 argv options t pre st ->
  exists a, head argv = Some a
    /\ parse win32 argv options
       = Exited 0
           (if String.eqb (name o) "help"
            then priv.displayHelpMessage win32 a options
            else defaultValue o +:+ nl)
           "".
Proof.
  intros Hbuild Ho Hn Hf Hd Hargv Hpre. destruct st as [r1 p1].
  pose proof (registered _ _ Hbuild _ _ Ho Hf) as Ht.
  rewrite (parse_resume _ _ _ _ Hbuild _ _ _ _ Hargv Hpre).
  rewrite (processArgs_dash _ _ _ _ _ _ _ _ Hd), Ht.
  destruct (head_of_tail _ _ _ _ Hargv) as [a Ha]. exists a.
  split; [exact Ha|].
  destruct Hn as [Hn | Hn]; rewrite Hn; simpl;
    [rewrite (exitWithHelp_head _ _ _ _ _ _ Ha)|]; reflexivity.
Qed.

Lemma help_version_short_circuit_witness :
  (exists a, head ["prog"; "--help"; "--bogus"; "-o"] = Some a
     /\ parse false ["prog"; "--help"; "--bogus"; "-o"] renameOptions
        = Exited 0 (priv.displayHelpMessage false a renameOptions) "")
  /\ (exists a, head ["prog"; "a.txt"; "-v"; "b.txt"] = Some a
      /\ parse false ["prog"; "a.txt"; "-v"; "b.txt"] renameOptions
         = Exited 0 ("1.0" +:+ nl) "").
Proof.
  split.
  - apply (help_version_short_circuit false
             ["prog"; "--help"; "--bogus"; "-o"] renameOptions renameTables
             [] "--help" ["--bogus"; "-o"] helpOption
             (result renameTables, inputOption)).
    + reflexivity.
    + apply elem_of_cons. left. reflexivity.
    + left. reflexivity.
    + apply elem_of_cons. right. apply elem_of_cons. left. reflexivity.
    + reflexivity.
    + reflexivity.
    + reflexivity.
  - apply (help_version_short_circuit false
             ["prog"; "a.txt"; "-v"; "b.txt"] renameOptions renameTables
             ["a.txt"] "-v" ["b.txt"] versionOption
             (<["input" := "a.txt"]> (result renameTables),
              ProgramOption_default)).
    + reflexivity.
    + apply elem_of_cons. right. apply elem_of_cons. left. reflexivity.
    + right. reflexivity.
    + apply elem_of_cons. left. reflexivity.
    + reflexivity.
    + reflexivity.
    + reflexivity.
Defined.

(** *** Unknown options *)

(** Claim C6, as the code has it.  When the loop of [parse] reaches a
    token that starts with ['-'] and is no flag of the schema, [parse]
    writes the "unknown option" line with that token to the error
    stream, writes the help message to the output stream, and exits with
    code 1. *)
Theorem unknown_option_when_reached
  (win32 : bool) (argv : list string) (options : list ProgramOption)
  (t : tables) (pre : list string) (tok : string) (rest : list string)
  (st : gmap string string * ProgramOption) :
  buildTables options initialTables = Returned t ->
  tail argv = (pre ++ tok :: rest)%list ->
  scanned win32 argv options t pre st ->
  startsDash tok = true ->
  (forall o, o ∈ options -> tok ∉ flags o) ->
  exists a, head argv = Some a
    /\ parse win32 argv options
       = Exited 1 (priv.displayHelpMessage win32 a options)
           ("Error: unknown option '" +:+ tok +:+ "'" +:+ nl).
Proof.
  intros Hbuild Hargv Hpre Hd Hno. destruct st as [r1 p1].
  assert (Ht : allFlags t !! tok = None).
  { destruct (allFlags t !! tok) as [o|] eqn:E; [|reflexivity].
    apply buildTables_initial in Hbuild as (Hall & _ & _).
    apply Hall in E as [Ho Hf]. exfalso. exact (Hno o Ho Hf). }
  rewrite (parse_resume _ _ _ _ Hbuild _ _ _ _ Hargv Hpre).
  rewrite (processArgs_dash _ _ _ _ _ _ _ _ Hd), Ht. simpl.
  destruct (head_of_tail _ _ _ _ Hargv) as [a Ha]. exists a.
  split; [exact Ha|]. rewrite (exitWithHelp_head _ _ _ _ _ _ Ha).
  reflexivity.
Qed.

Lemma unknown_option_when_reached_witness :
  exists a, head ["prog"; "a.txt"; "--bogus"] = Some a
    /\ parse false ["prog"; "a.txt"; "--bogus"] renameOptions
       = Exited 1 (priv.displayHelpMessage false a renameOptions)
           ("Error: unknown option '" +:+ "--bogus" +:+ "'" +:+ nl).
Proof.
  apply (unknown_option_when_reached false ["prog"; "a.txt"; "--bogus"]
           renameOptions renameTables ["a.txt"] "--bogus" []
           (<["input" := "a.txt"]> (result renameTables),
            ProgramOption_default)).
  - reflexivity.
  - reflexivity.
  - reflexivity.
  - reflexivity.
  - intros o Ho Hf. unfold renameOptions in Ho.
    repeat (apply elem_of_cons in Ho as [-> | Ho]);
      [..| by apply elem_of_nil in Ho]; simpl in Hf;
      repeat (apply elem_of_cons in Hf as [Hf | Hf]; [discriminate Hf|]);
      by apply elem_of_nil in Hf.
Defined.

(** Claim C6 as it is stated fails: a help flag before the unknown token
    ends the process with code 0. *)
Lemma unknown_option_wherever_fails : ~ unknown_option_wherever.
Proof.
  intros H.
  destruct (H false ["prog"; "-h"; "--bogus"] renameOptions renameTables
              "--bogus") as (out & err & E); try reflexivity.
  - simpl. apply elem_of_cons. right. apply elem_of_cons. left. reflexivity.
  - discriminate E.
Qed.

(** *** Bare tokens and the positional option *)

Lemma value_at_lookup (m : gmap string string) (k v : string) :
  value_at m k = v -> v <> "" -> m !! k = Some v.
Proof.
  unfold value_at. destruct (m !! k) as [w|]; simpl; congruence.
Qed.

(** Claim C7.  When the loop of [parse] reaches a bare token after it
    has already read one, or when the schema has no positional option,
    [parse] writes the "unexpected value" line with that token to the
    error stream, writes the help message to the output stream, and
    exits with code 1.  The bare tokens read before are at most one, and
    that one is the value the result map holds under the positional
    name. *)
Theorem extra_bare_token_unexpected
  (win32 : bool) (argv : list string) (options : list ProgramOption)
  (t : tables) (pre : list string) (tok : string) (rest : list string)
  (r1 : gmap string string) (p1 : ProgramOption) :
  buildTables options initialTables = Returned t ->
  tail argv = (pre ++ tok :: rest)%list ->
  scanned win32 argv options t pre (r1, p1) ->
  bareToken tok = true ->
  bareTokens (allFlags t) pre <> [] \/ name (positionalOption t) = "" ->
  (bareTokens (allFlags t) pre = []
   \/ exists b, bareTokens (allFlags t) pre = [b]
               /\ r1 !! name (positionalOption t) = Some b)
  /\ exists a, head argv = Some a
       /\ parse win32 argv options
          = Exited 1 (priv.displayHelpMessage win32 a options)
              ("Error: unexpected value '" +:+ tok +:+ "'." +:+ nl).
Proof.
  intros Hbuild Hargv Hpre Hb Hsecond.
  pose proof Hpre as Hrun. apply processArgs_scan in Hrun.
  apply scan_positional in Hrun.
  assert (Hp1 : name p1 = "").
  { destruct Hrun as [[Hnone ->] | (b & _ & _ & _ & -> & _)];
      [|reflexivity].
    destruct Hsecond as [Hs | Hs]; [contradiction | exact Hs]. }
  split.
  - destruct Hrun as [[Hnone _] | (b & Hone & Hbb & _ & _ & Hval)];
      [left; exact Hnone | right].
    exists b. split; [exact Hone|].
    apply value_at_lookup; [exact Hval | by apply bareToken_nonempty].
  - rewrite (parse_resume _ _ _ _ Hbuild _ _ _ _ Hargv Hpre).
    rewrite (processArgs_bare _ _ _ _ _ _ _ _ Hb), Hp1. simpl.
    destruct (head_of_tail _ _ _ _ Hargv) as [a Ha]. exists a.
    split; [exact Ha|]. rewrite (exitWithHelp_head _ _ _ _ _ _ Ha).
    reflexivity.
Qed.

Lemma extra_bare_token_unexpected_witness :
  (bareTokens (allFlags renameTables) ["a.txt"] = []
   \/ exists b, bareTokens (allFlags renameTables) ["a.txt"] = [b]
               /\ <["input" := "a.txt"]> (result renameTables)
                  !! name (positionalOption renameTables) = Some b)
  /\ exists a, head ["prog"; "a.txt"; "extra.txt"] = Some a
       /\ parse false ["prog"; "a.txt"; "extra.txt"] renameOptions
          = Exited 1 (priv.displayHelpMessage false a renameOptions)
              ("Error: unexpected value '" +:+ "extra.txt" +:+ "'." +:+ nl).
Proof.
  apply (extra_bare_token_unexpected false ["prog"; "a.txt"; "extra.txt"]
           renameOptions renameTables ["a.txt"] "extra.txt" []
           (<["input" := "a.txt"]> (result renameTables))
           ProgramOption_default).
  - reflexivity.
  - reflexivity.
  - reflexivity.
  - reflexivity.
  - left. discriminate.
Defined.

Lemma checkPositional_eq (win32 : bool) (argv0 : option string)
  (options : list ProgramOption) (r : gmap string string)
  (p : ProgramOption) :
  checkPositional win32 argv0 options (r, p)
  = if negb (empty (name p)) then
      if empty (value_at r (name p))
      then exitWithHelp win32 argv0 options 1 (missingPositional p)
      else AssertionFailed
    else Returned r.
Proof.
  unfold checkPositional, subscript, value_at.
  destruct (r !! name p); reflexivity.
Qed.

(** Once every token has been read, [parse] ends with the check of the
    positional option. *)
Lemma parse_end (win32 : bool) (argv : list string)
  (options : list ProgramOption) (t : tables)
  (st : gmap string string * ProgramOption) :
  buildTables options initialTables = Returned t ->
  scanned win32 argv options t (tail argv) st ->
  parse win32 argv options = checkPositional win32 (head argv) options st.
Proof.
  intros Hbuild Hscan. unfold parse. rewrite Hbuild.
  unfold scanned in Hscan.
  cbv beta iota delta [mbind outcome_bind]. rewrite Hscan. reflexivity.
Qed.

(** When the loop ends with the positional option still there, [parse]
    does not return. *)
Lemma positional_unbound_never_returns
  (win32 : bool) (argv : list string) (options : list ProgramOption)
  (t : tables) (r1 : gmap string string) (p1 : ProgramOption)
  (res : gmap string string) :
  buildTables options initialTables = Returned t ->
  scanned win32 argv options t (tail argv) (r1, p1) ->
  name p1 <> "" ->
  parse win32 argv options <> Returned res.
Proof.
  intros Hbuild Hscan Hn. rewrite (parse_end _ _ _ _ _ Hbuild Hscan).
  rewrite checkPositional_eq. apply empty_false in Hn. rewrite Hn. simpl.
  destruct (empty (value_at r1 (name p1))); [|discriminate].
  apply exitWithHelp_not_returned.
Qed.

(** Claim C5, as the code has it.  Take a schema with a positional
    option whose name is not also a flag, and an argument vector in
    which every token starts with ['-'].  When the loop of [parse] reads
    all the tokens to the end, [parse] writes the "missing value" line
    with the name of the positional option to the error stream, writes
    the help message to the output stream, and exits with code 1. *)
Theorem positional_missing_at_end
  (win32 : bool) (argv : list string) (options : list ProgramOption)
  (t : tables) (a : string) (st : gmap string string * ProgramOption) :
  buildTables options initialTables = Returned t ->
  head argv = Some a ->
  name (positionalOption t) <> "" ->
  flagOf options (name (positionalOption t)) = false ->
  Forall (fun tok => startsDash tok = true) (tail argv) ->
  scanned win32 argv options t (tail argv) st ->
  parse win32 argv options
  = Exited 1 (priv.displayHelpMessage win32 a options)
      ("Error: missing '" +:+ name (positionalOption t) +:+ "' value ("
         +:+ description (positionalOption t) +:+ ")." +:+ nl).
Proof.
  intros Hbuild Ha Hn Hflag Hall Hscan. destruct st as [r1 p1].
  pose proof Hscan as Hrun. apply processArgs_scan in Hrun.
  assert (Hp1 : p1 = positionalOption t).
  { destruct (scan_positional _ _ _ _ _ _ _ _ _ Hrun)
      as [[_ ->] | (b & Hone & _)]; [reflexivity|].
    rewrite (bareTokens_all_dash _ _ Hall) in Hone. discriminate. }
  subst p1.
  assert (Hval : value_at r1 (name (positionalOption t)) = "").
  { rewrite (scan_all_dash _ _ _ _ _ _ _ _ _ _ Hrun Hall Hn).
    exact (seeded_value _ _ Hbuild _ Hflag). }
  rewrite (parse_end _ _ _ _ _ Hbuild Hscan).
  rewrite checkPositional_eq, Hval. apply empty_false in Hn. rewrite Hn.
  simpl. rewrite Ha. reflexivity.
Qed.

Lemma positional_missing_at_end_witness :
  parse false ["prog"; "--verbose"] renameOptions
  = Exited 1 (priv.displayHelpMessage false "prog" renameOptions)
      ("Error: missing '" +:+ "input" +:+ "' value ("
         +:+ "Input file to rename" +:+ ")." +:+ nl).
Proof.
  apply (positional_missing_at_end false ["prog"; "--verbose"]
           renameOptions renameTables "prog"
           (<["" := "true"]> (result renameTables), inputOption)).
  - reflexivity.
  - reflexivity.
  - discriminate.
  - reflexivity.
  - repeat constructor.
  - reflexivity.
Defined.

(** Claim C5 as it is stated fails: with a help flag as the only token
    the process ends with code 0. *)
Lemma positional_missing_whenever_absent_fails :
  ~ positional_missing_whenever_absent.
Proof.
  intros H.
  destruct (H false ["prog"; "-h"] renameOptions renameTables)
    as (out & err & E); try reflexivity; try discriminate.
  repeat constructor.
Qed.

(** Claim C8, as the code has it.  Take a schema with a positional
    option, whatever its default, whose name is neither a flag nor the
    name of an option that takes a value.  The result map [parse] starts
    from holds defaults under the flags of the schema only, so it holds
    nothing under the positional name; and when the loop reads an input
    without a bare token to the end, [parse] writes the "missing value"
    line with the name of the positional option to the error stream,
    writes the help message to the output stream, and exits with
    code 1. *)
Theorem positional_default_ignored
  (win32 : bool) (argv : list string) (options : list ProgramOption)
  (t : tables) (a : string) (st : gmap string string * ProgramOption) :
  buildTables options initialTables = Returned t ->
  head argv = Some a ->
  name (positionalOption t) <> "" ->
  flagOf options (name (positionalOption t)) = false ->
  valueNameOf options (name (positionalOption t)) = false ->
  bareTokens (allFlags t) (tail argv) = [] ->
  scanned win32 argv options t (tail argv) st ->
  (forall k, is_Some (result t !! k) <-> flagOf options k = true)
  /\ result t !! name (positionalOption t) = None
  /\ parse win32 argv options
     = Exited 1 (priv.displayHelpMessage win32 a options)
         ("Error: missing '" +:+ name (positionalOption t) +:+ "' value ("
            +:+ description (positionalOption t) +:+ ")." +:+ nl).
Proof.
  intros Hbuild Ha Hn Hflag Hvalue Hnone Hscan. destruct st as [r1 p1].
  assert (Hkeys : forall k, is_Some (result t !! k) <-> flagOf options k = true).
  { intros k. pose proof (flagOf_false _ _ Hbuild k) as Hk.
    pose proof Hbuild as Hb. apply buildTables_initial in Hb as (_ & Hseed & _).
    rewrite Hseed. destruct (allFlags t !! k) as [o|]; simpl.
    - split; [intros _ | eauto].
      destruct (flagOf options k); [reflexivity|].
      destruct Hk as [Hk _]. discriminate Hk; reflexivity.
    - split; [intros [x Hx]; discriminate Hx|].
      destruct Hk as [_ Hk]. rewrite Hk; [discriminate | reflexivity]. }
  split; [exact Hkeys|]. split.
  { destruct (result t !! name (positionalOption t)) eqn:E; [|reflexivity].
    assert (Hs : is_Some (result t !! name (positionalOption t))) by eauto.
    apply Hkeys in Hs. congruence. }
  pose proof Hscan as Hrun. apply processArgs_scan in Hrun.
  assert (Hp1 : p1 = positionalOption t).
  { destruct (scan_positional _ _ _ _ _ _ _ _ _ Hrun)
      as [[_ ->] | (b & Hone & _)]; [reflexivity|].
    rewrite Hnone in Hone. discriminate. }
  subst p1.
  assert (Hval : value_at r1 (name (positionalOption t)) = "").
  { rewrite (scan_untouched _ _ _ _ _ _ _ _ _ _ Hrun Hn).
    - exact (seeded_value _ _ Hbuild _ Hflag).
    - intros f opt Hf Hv. exact (valueNameOf_false _ _ Hbuild _ _ _ Hvalue Hf Hv).
    - right. exact Hn. }
  rewrite (parse_end _ _ _ _ _ Hbuild Hscan).
  rewrite checkPositional_eq, Hval. apply empty_false in Hn. rewrite Hn.
  simpl. rewrite Ha. reflexivity.
Qed.

Lemma positional_default_ignored_witness :
  (forall k, is_Some (result defaultedTables !! k)
             <-> flagOf defaultedOptions k = true)
  /\ result defaultedTables !! "input" = None
  /\ parse false ["prog"; "-o"; "out.txt"] defaultedOptions
     = Exited 1 (priv.displayHelpMessage false "prog" defaultedOptions)
         ("Error: missing '" +:+ "input" +:+ "' value ("
            +:+ "Input file to rename" +:+ ")." +:+ nl).
Proof.
  apply (positional_default_ignored false ["prog"; "-o"; "out.txt"]
           defaultedOptions defaultedTables "prog"
           (<["output" := "out.txt"]> (result defaultedTables),
            inputWithDefault)).
  - reflexivity.
  - reflexivity.
  - discriminate.
  - reflexivity.
  - reflexivity.
  - reflexivity.
  - reflexivity.
Defined.

(** Claim C8 as it is stated fails: with a default for the positional
    option and a help flag as the only token, the process ends with
    code 0. *)
Lemma positional_default_missing_whenever_omitted_fails :
  ~ positional_default_missing_whenever_omitted.
Proof.
  intros H.
  destruct (H false ["prog"; "-h"] defaultedOptions defaultedTables)
    as (out & err & E); try reflexivity; try discriminate.
Qed.

(** The two conditions on the name of the positional option are needed:
    when an option that takes a value has the same name and receives a
    value, or when the name is also a flag with a default, the [assert]
    before the "missing value" line fails. *)
Example positional_name_shared_fails_assert :
  parse false ["prog"; "-i"; "x"]
    [inputWithDefault;
     {| name := "input"; flags := ["-i"]; description := "Input file";
        defaultValue := "" |}]
  = AssertionFailed
  /\ parse false ["prog"]
       [{| name := "-x"; flags := []; description := "Input file";
           defaultValue := "in.txt" |};
        {| name := ""; flags := ["-x"]; description := "Extra";
           defaultValue := "on" |}]
     = AssertionFailed.
Proof. split; reflexivity. Qed.

(** *** Empty values *)

(** Result maps that [m[k]] cannot tell apart drive the loop the same
    way. *)
Lemma scan_sameValues (win32 : bool) (argv0 : option string)
  (options : list ProgramOption) (tbl : gmap string ProgramOption)
  (toks : list string) (r : gmap string string) (p : ProgramOption)
  (o : outcome (gmap string string * ProgramOption)) :
  scan win32 argv0 options tbl toks r p o ->
  forall r', sameValues r r' ->
    exists o', scan win32 argv0 options tbl toks r' p o' /\ sameOutcome o o'.
Proof.
  assert (Hins : forall (m m' : gmap string string) k v,
             sameValues m m' -> sameValues (<[k := v]> m) (<[k := v]> m')).
  { intros m m' k v H k'. destruct (decide (k = k')) as [<- | Hne].
    - rewrite !value_at_insert. reflexivity.
    - rewrite !value_at_insert_ne by exact Hne. apply H. }
  induction 1; intros r' Hsame;
    try (destruct (IHscan _ (Hins _ _ _ _ Hsame)) as (o' & Ho' & Hoo'));
    try rewrite (Hsame _) in Hr.
  - eexists. split; [constructor|]. split; [exact Hsame | reflexivity].
  - eexists. split; [constructor|]. reflexivity.
  - eexists. split; [by constructor|]. unfold exitWithHelp. by destruct argv0.
  - eexists. split; [by eapply scan_help|]. unfold exitWithHelp. by destruct argv0.
  - eexists. split; [by eapply scan_version|]. reflexivity.
  - eexists. split; [by eapply scan_value_missing_end|]. reflexivity.
  - eexists. split; [by eapply scan_value_missing_dash|]. reflexivity.
  - eexists. split; [by eapply scan_value_rebound|]. reflexivity.
  - exists o'. split; [by eapply scan_value_bound | exact Hoo'].
  - eexists. split; [by eapply scan_flag_rebound|]. reflexivity.
  - exists o'. split; [by eapply scan_flag_bound | exact Hoo'].
  - eexists. split; [by eapply scan_bare_rebound|]. reflexivity.
  - exists o'. split; [by eapply scan_bare_bound | exact Hoo'].
  - eexists. split; [by eapply scan_bare_unexpected|]. unfold exitWithHelp. by destruct argv0.
Qed.

(** Claim C9, as the code has it.  When the loop of [parse] reaches a
    flag of an option that takes a value, no value is held yet under the
    option's name, and the next token is the empty string, the loop
    accepts it: it goes on to the tokens after it with the empty string
    bound under the option's name, and the map holds that key.  The
    value [m[k]] reads under that name is then the one it reads under a
    key that was never written, [setValue] accepts a further value under
    it, and the rest of the loop ends as it would have without the
    binding, up to result maps that [m[k]] cannot tell apart. *)
Theorem empty_value_accepted
  (win32 : bool) (argv : list string) (options : list ProgramOption)
  (t : tables) (pre : list string) (f : string) (rest : list string)
  (opt : ProgramOption) (r1 : gmap string string) (p1 : ProgramOption) :
  buildTables options initialTables = Returned t ->
  tail argv = (pre ++ f :: "" :: rest)%list ->
  scanned win32 argv options t pre (r1, p1) ->
  startsDash f = true -> allFlags t !! f = Some opt ->
  takesValue opt = true ->
  value_at r1 (name opt) = "" ->
  scanned win32 argv options t (pre ++ [f; ""])
    (<[name opt := ""]> r1, p1)
  /\ <[name opt := ""]> r1 !! name opt = Some ""
  /\ value_at (<[name opt := ""]> r1) (name opt)
     = value_at (∅ : gmap string string) (name opt)
  /\ (forall v, priv.setValue (<[name opt := ""]> r1) opt v
                = Returned (<[name opt := v]> r1))
  /\ sameOutcome
       (processArgs win32 (head argv) options (allFlags t) rest
          (<[name opt := ""]> r1) p1)
       (processArgs win32 (head argv) options (allFlags t) rest r1 p1).
Proof.
  intros Hbuild Hargv Hpre Hd Ht Hv Hr.
  assert (Hsame : sameValues (<[name opt := ""]> r1) r1).
  { intros k. destruct (decide (name opt = k)) as [<- | Hne].
    - rewrite value_at_insert, Hr. reflexivity.
    - apply value_at_insert_ne. exact Hne. }
  split; [|split; [|split; [|split]]].
  - unfold scanned in *. rewrite (processArgs_app _ _ _ _ _ _ _ _ _ _ Hpre).
    apply processArgs_scan. eapply scan_value_bound; eauto. constructor.
  - apply lookup_insert_eq.
  - rewrite value_at_insert. reflexivity.
  - intros v. rewrite setValue_eq, value_at_insert. simpl.
    rewrite insert_insert_eq. reflexivity.
  - pose proof (processArgs_run win32 (head argv) options (allFlags t) _
                  rest (<[name opt := ""]> r1) p1 (le_n _)) as Hrun.
    destruct (scan_sameValues _ _ _ _ _ _ _ _ Hrun _ Hsame) as (o' & Ho' & Hoo').
    apply processArgs_scan in Ho'. rewrite Ho'. exact Hoo'.
Qed.

Lemma empty_value_accepted_witness :
  scanned false ["prog"; "a.txt"; "-o"; ""] renameOptions renameTables
    (["a.txt"] ++ ["-o"; ""])
    (<["output" := ""]> (<["input" := "a.txt"]> (result renameTables)),
     ProgramOption_default)
  /\ <["output" := ""]> (<["input" := "a.txt"]> (result renameTables))
     !! "output" = Some ""
  /\ value_at
       (<["output" := ""]> (<["input" := "a.txt"]> (result renameTables)))
       "output"
     = value_at (∅ : gmap string string) "output"
  /\ (forall v,
        priv.setValue
          (<["output" := ""]> (<["input" := "a.txt"]> (result renameTables)))
          outputOption v
        = Returned
            (<["output" := v]> (<["input" := "a.txt"]> (result renameTables))))
  /\ sameOutcome
       (processArgs false (head ["prog"; "a.txt"; "-o"; ""]) renameOptions
          (allFlags renameTables) []
          (<["output" := ""]> (<["input" := "a.txt"]> (result renameTables)))
          ProgramOption_default)
       (processArgs false (head ["prog"; "a.txt"; "-o"; ""]) renameOptions
          (allFlags renameTables) []
          (<["input" := "a.txt"]> (result renameTables))
          ProgramOption_default).
Proof.
  apply (empty_value_accepted false ["prog"; "a.txt"; "-o"; ""]
           renameOptions renameTables ["a.txt"] "-o" [] outputOption
           (<["input" := "a.txt"]> (result renameTables))
           ProgramOption_default).
  - reflexivity.
  - reflexivity.
  - reflexivity.
  - reflexivity.
  - reflexivity.
  - reflexivity.
  - reflexivity.
Defined.

(** Claim C9 as it is stated fails: after [-o x] the key [output] holds
    a value, and the [assert] of [setValue] stops the empty value of a
    second [-o]. *)
Lemma empty_value_always_accepted_fails : ~ empty_value_always_accepted.
Proof.
  intros H.
  destruct (H false ["prog"; "-o"; "x"; "-o"; ""] renameOptions renameTables
              ["-o"; "x"] "-o" [] outputOption
              (<["output" := "x"]> (result renameTables)) inputOption)
    as [r2 E]; try reflexivity.
  discriminate E.
Qed.

(** The binding of an empty value shows in the returned map: the key is
    there, with the empty string, while the map returned without the
    flag has no such key. *)
Example empty_value_key_is_present :
  (exists res, parse false ["prog"; "a.txt"; "-o"; ""] renameOptions
               = Returned res
               /\ res !! "output" = Some "")
  /\ (exists res, parse false ["prog"; "a.txt"] renameOptions = Returned res
                  /\ res !! "output" = None).
Proof. split; eexists; split; reflexivity. Qed.

(** *** Empty tokens *)

Lemma parse_front_of_empty (win32 : bool) (argv : list string)
  (options : list ProgramOption) (t : tables) :
  buildTables options initialTables = Returned t ->
  parse win32 argv options = Undefined front_of_empty <->
  processArgs win32 (head argv) options (allFlags t) (tail argv)
    (result t) (positionalOption t) = Undefined front_of_empty.
Proof.
  intros Hbuild. unfold parse. rewrite Hbuild.
  cbv beta iota delta [mbind outcome_bind].
  destruct (processArgs win32 (head argv) options (allFlags t) (tail argv)
              (result t) (positionalOption t)) as [[r1 p1] | | |];
    [|split; discriminate | split; discriminate | split; intros H; injection H as ->; reflexivity].
  rewrite checkPositional_eq.
  split; [|discriminate]. intros H. exfalso.
  destruct (negb (empty (name p1))); [|discriminate H].
  destruct (empty (value_at r1 (name p1))); [|discriminate H].
  exact (exitWithHelp_not_front _ _ _ _ _ H).
Qed.

(** Claim C10, as the code has it.  [parse] calls [front()] on the
    tokens on which the loop starts an iteration; the value of an option
    is read through [argv[i][0]], and the tokens after an exit are not
    read.  So [parse] calls [front()] on an empty string exactly when
    the loop reads some first tokens to their end and the next token is
    empty; in particular it never does when no token is empty. *)
Theorem front_of_empty_exactly
  (win32 : bool) (argv : list string) (options : list ProgramOption)
  (t : tables) :
  buildTables options initialTables = Returned t ->
  (Forall (fun tok => tok <> "") (tail argv) ->
   parse win32 argv options <> Undefined front_of_empty)
  /\ (parse win32 argv options = Undefined front_of_empty <->
      exists pre rest st,
        tail argv = (pre ++ "" :: rest)%list
        /\ scanned win32 argv options t pre st).
Proof.
  intros Hbuild.
  assert (Hiff : parse win32 argv options = Undefined front_of_empty <->
                 exists pre rest st,
                   tail argv = (pre ++ "" :: rest)%list
                   /\ scanned win32 argv options t pre st).
  { rewrite (parse_front_of_empty _ _ _ _ Hbuild).
    rewrite <- processArgs_scan, scan_front_of_empty.
    unfold scanned. split; intros (pre & rest & st & Heq & H);
      exists pre, rest, st; (split; [exact Heq|]);
      apply processArgs_scan; exact H. }
  split; [|exact Hiff].
  intros Hall Hundef. apply Hiff in Hundef as (pre & rest & st & Heq & _).
  rewrite Forall_forall in Hall. apply (Hall ""); [|reflexivity].
  rewrite Heq. apply elem_of_app. right. apply elem_of_cons. by left.
Qed.

Lemma front_of_empty_exactly_witness :
  parse false ["prog"; "a.txt"; "-o"; "b.txt"] renameOptions
    <> Undefined front_of_empty
  /\ parse false ["prog"; "a.txt"; ""; "-o"] renameOptions
     = Undefined front_of_empty.
Proof.
  split.
  - apply (front_of_empty_exactly false ["prog"; "a.txt"; "-o"; "b.txt"]
             renameOptions renameTables eq_refl).
    repeat constructor; discriminate.
  - apply (front_of_empty_exactly false ["prog"; "a.txt"; ""; "-o"]
             renameOptions renameTables eq_refl).
    exists ["a.txt"], ["-o"],
      (<["input" := "a.txt"]> (result renameTables), ProgramOption_default).
    split; reflexivity.
Defined.

(** Claim C10 as it is stated fails: an empty token that follows the
    flag of an option that takes a value is read through [argv[i][0]],
    and [parse] returns. *)
Lemma empty_token_always_undefined_fails : ~ empty_token_always_undefined.
Proof.
  intros H.
  assert (Hin : "" ∈ tail ["prog"; "a.txt"; "-o"; ""]).
  { apply list_elem_of_In. simpl. auto. }
  specialize (H false ["prog"; "a.txt"; "-o"; ""] renameOptions renameTables
                eq_refl Hin).
  discriminate H.
Qed.

(** *** The value of an option *)

Lemma parse_returned (win32 : bool) (argv : list string)
  (options : list ProgramOption) (t : tables) (res : gmap string string) :
  buildTables options initialTables = Returned t ->
  parse win32 argv options = Returned res ->
  exists p', scanned win32 argv options t (tail argv) (res, p').
Proof.
  intros Hbuild. unfold parse, scanned. rewrite Hbuild.
  cbv beta iota delta [mbind outcome_bind].
  destruct (processArgs win32 (head argv) options (allFlags t) (tail argv)
              (result t) (positionalOption t)) as [[r1 p1] | | |];
    try discriminate.
  rewrite checkPositional_eq. intros H. exists p1.
  destruct (negb (empty (name p1))); [|congruence].
  destruct (empty (value_at r1 (name p1))); [|discriminate H].
  exfalso. exact (exitWithHelp_not_returned _ _ _ _ _ _ H).
Qed.

(** Claim C2, as the code has it.  When [parse] returns, a flag of an
    option that takes a value occurs in the input and the token after it
    is not empty, the result map holds that token under the option's
    name.  (An empty token after the flag is bound too, but a later
    binding under the same name may replace it.) *)
Theorem value_follows_flag_when_nonempty
  (win32 : bool) (argv : list string) (options : list ProgramOption)
  (t : tables) (res : gmap string string)
  (pre : list string) (f v : string) (rest : list string)
  (opt : ProgramOption) :
  buildTables options initialTables = Returned t ->
  parse win32 argv options = Returned res ->
  tail argv = (pre ++ f :: v :: rest)%list ->
  startsDash f = true -> allFlags t !! f = Some opt ->
  takesValue opt = true ->
  v <> "" ->
  res !! name opt = Some v.
Proof.
  intros Hbuild Hparse Hargv Hd Ht Hv Hne.
  destruct (parse_returned _ _ _ _ _ Hbuild Hparse) as [p' Hscan].
  unfold scanned in Hscan. rewrite Hargv in Hscan.
  apply processArgs_scan in Hscan.
  destruct (scan_split_dash _ _ _ _ _ _ _ _ Hscan _ _ _ eq_refl Hd)
    as (r1 & p1 & _ & Hrun).
  apply processArgs_scan in Hrun.
  rewrite (processArgs_dash _ _ _ _ _ _ _ _ Hd), Ht in Hrun.
  apply takesValue_tests in Hv as (Hv1 & Hv2 & Hv3).
  rewrite Hv1, Hv2, Hv3 in Hrun. simpl in Hrun.
  destruct (startsDash v); [discriminate Hrun|].
  rewrite setValue_eq in Hrun.
  destruct (empty (value_at r1 (name opt))); [|discriminate Hrun].
  cbv beta iota delta [mbind outcome_bind] in Hrun.
  apply processArgs_scan in Hrun.
  apply value_at_lookup; [|exact Hne].
  rewrite (scan_stable _ _ _ _ _ _ _ _ _ _ Hrun);
    rewrite value_at_insert; [reflexivity | exact Hne].
Qed.

Lemma value_follows_flag_when_nonempty_witness :
  <["output" := "b.txt"]> (<["input" := "a.txt"]> (result renameTables))
    !! "output" = Some "b.txt".
Proof.
  apply (value_follows_flag_when_nonempty false
           ["prog"; "a.txt"; "--output"; "b.txt"] renameOptions renameTables
           (<["output" := "b.txt"]>
              (<["input" := "a.txt"]> (result renameTables)))
           ["a.txt"] "--output" "b.txt" [] outputOption).
  - reflexivity.
  - reflexivity.
  - reflexivity.
  - reflexivity.
  - reflexivity.
  - reflexivity.
  - discriminate.
Defined.

(** Claim C2 as it is stated fails: after [-o ""] the key [output] holds
    the empty string, the [assert] of [setValue] lets [-o b] through,
    and the value at the end is ["b"], not the token after the first
    [-o]. *)
Lemma value_follows_every_occurrence_fails : ~ value_follows_every_occurrence.
Proof.
  intros H.
  assert (Hparse :
    parse false ["prog"; "a.txt"; "-o"; ""; "-o"; "b"] renameOptions
    = Returned (<["output" := "b"]>
                  (<["output" := ""]>
                     (<["input" := "a.txt"]> (result renameTables)))))
    by (vm_compute; reflexivity).
  specialize (H false ["prog"; "a.txt"; "-o"; ""; "-o"; "b"] renameOptions
                renameTables _ ["a.txt"] "-o" "" ["-o"; "b"] outputOption
                eq_refl Hparse eq_refl eq_refl eq_refl eq_refl).
  vm_compute in H. discriminate H.
Qed.

(** *** Flags without a name *)

(** Property X21.
    What the code does with the key of a flag, for every schema and
    input: when [parse] returns, a flag that is not also the name of an
    option still holds the default of its option, whether or not the
    flag was given. *)
Lemma flag_key_keeps_default
  (win32 : bool) (argv : list string) (options : list ProgramOption)
  (t : tables) (res : gmap string string) (o : ProgramOption) (f : string) :
  buildTables options initialTables = Returned t ->
  parse win32 argv options = Returned res ->
  o ∈ options -> f ∈ flags o ->
  f <> "" -> valueNameOf options f = false ->
  f <> name (positionalOption t) ->
  res !! f = Some (defaultValue o).
Proof.
  intros Hbuild Hparse Ho Hf Hne Hvalue Hpos.
  destruct (parse_returned _ _ _ _ _ Hbuild Hparse) as [p' Hscan].
  apply processArgs_scan in Hscan.
  rewrite (scan_untouched_lookup _ _ _ _ _ _ _ _ _ _ Hscan Hne); auto.
  - pose proof Hbuild as Hb.
    apply buildTables_initial in Hb as (_ & Hseed & _).
    rewrite Hseed, (registered _ _ Hbuild _ _ Ho Hf). reflexivity.
  - intros f' opt Hf' Hv. exact (valueNameOf_false _ _ Hbuild _ _ _ Hvalue Hf' Hv).
Qed.

(** Claim C1, on the code.  With the schema of the header's example and
    the input [prog a.txt --verbose], [parse] returns a map in which the
    key [--verbose] still holds the default, the empty string: the
    string ["true"] is written under [opt.name], which is empty for a
    flag without a name.  A second flag without a name then trips the
    [assert] of [setValue]. *)
Theorem verbose_flag_not_set :
  parse false ["prog"; "a.txt"; "--verbose"] renameOptions
  = Returned (<["" := "true"]> (<["input" := "a.txt"]> (result renameTables)))
  /\ <["" := "true"]> (<["input" := "a.txt"]> (result renameTables))
     !! "--verbose" = Some ""
  /\ <["" := "true"]> (<["input" := "a.txt"]> (result renameTables))
     !! "" = Some "true"
  /\ parse false ["prog"; "a.txt"; "--verbose"; "--verbose"] renameOptions
     = AssertionFailed.
Proof. repeat split; reflexivity. Qed.

(** * Further properties of the header *)

(** ** Texts *)

Lemma append_String (x : ascii) (a b : string) :
  String x a +:+ b = String x (a +:+ b).
Proof. reflexivity. Qed.

Lemma append_empty_l (a : string) : "" +:+ a = a.
Proof. reflexivity. Qed.

Lemma append_assoc (a b c : string) : (a +:+ b) +:+ c = a +:+ (b +:+ c).
Proof.
  induction a as [|x a IH]; [reflexivity|].
  rewrite !append_String, IH. reflexivity.
Qed.

Lemma append_empty_r (a : string) : a +:+ "" = a.
Proof.
  induction a as [|x a IH]; [reflexivity|].
  rewrite append_String, IH. reflexivity.
Qed.

Lemma length_append (a b : string) :
  String.length (a +:+ b) = (String.length a + String.length b)%nat.
Proof.
  induction a as [|x a IH]; [reflexivity|].
  rewrite append_String. simpl. by rewrite IH.
Qed.

Lemma length_spaces (n : nat) : String.length (spaces n) = n.
Proof. induction n as [|n IH]; simpl; [reflexivity | by rewrite IH]. Qed.

Lemma hasChar_append (c : ascii) (a b : string) :
  hasChar c (a +:+ b) = hasChar c a || hasChar c b.
Proof.
  induction a as [|x a IH]; [reflexivity|].
  rewrite append_String. simpl. rewrite IH. apply orb_assoc.
Qed.

Lemma substr_append (pre s : string) :
  substr (String.length pre) (pre +:+ s) = s.
Proof.
  induction pre as [|x pre IH]; [by destruct s|].
  rewrite append_String. exact IH.
Qed.

Lemma hasChar_substr (c : ascii) (n : nat) :
  forall s, hasChar c s = false -> hasChar c (substr n s) = false.
Proof.
  induction n as [|n IH]; intros s H; [by destruct s|].
  destruct s as [|a s]; [reflexivity|]. simpl in *.
  apply orb_false_iff in H as [_ H]. by apply IH.
Qed.

Lemma substr_append_ge (pre s : string) (m : nat) :
  (String.length pre <= m)%nat ->
  substr m (pre +:+ s) = substr (m - String.length pre) s.
Proof.
  revert m. induction pre as [|x pre IH]; intros m Hm.
  - rewrite append_empty_l. simpl. by rewrite Nat.sub_0_r.
  - rewrite append_String. simpl in Hm.
    destruct m as [|m]; [lia|]. simpl. apply IH. lia.
Qed.

Lemma substr_0 (s : string) : substr 0 s = s.
Proof. by destruct s. Qed.

(** [find_last_of]: no position exactly when the character is absent,
    and otherwise the position after which it is absent. *)
Lemma find_last_of_None (c : ascii) (s : string) :
  find_last_of c s = None <-> hasChar c s = false.
Proof.
  induction s as [|a s IH]; simpl; [done|].
  destruct (find_last_of c s) as [n|].
  - split; [discriminate|]. intros H. apply orb_false_iff in H as [_ H].
    apply IH in H. discriminate H.
  - destruct IH as [IH _]. rewrite (IH eq_refl), orb_false_r.
    destruct (Ascii.eqb a c); split; congruence.
Qed.

Lemma find_last_of_Some (c : ascii) (s : string) (n : nat) :
  find_last_of c s = Some n ->
  exists pre post, s = pre +:+ String c post /\ String.length pre = n
                   /\ hasChar c post = false.
Proof.
  revert n. induction s as [|a s IH]; intros n H; simpl in H; [discriminate|].
  destruct (find_last_of c s) as [m|] eqn:E.
  - injection H as <-. destruct (IH m eq_refl) as (pre & post & -> & Hl & Hp).
    exists (String a pre), post. rewrite append_String. simpl. by rewrite Hl.
  - destruct (Ascii.eqb a c) eqn:Ea; [|discriminate].
    injection H as <-. apply Ascii.eqb_eq in Ea as ->.
    exists "", s. repeat split. by apply find_last_of_None.
Qed.

Lemma find_last_of_here (c : ascii) (pre post : string) :
  hasChar c post = false ->
  find_last_of c (pre +:+ String c post) = Some (String.length pre).
Proof.
  intros H. induction pre as [|a pre IH].
  - rewrite append_empty_l. simpl.
    apply find_last_of_None in H. by rewrite H, Ascii.eqb_refl.
  - rewrite append_String. simpl. by rewrite IH.
Qed.

Lemma find_last_of_before (c a : ascii) (pre post : string) :
  hasChar c post = false -> a <> c ->
  find_last_of c (pre +:+ String a post) = find_last_of c pre.
Proof.
  intros H Ha. induction pre as [|x pre IH].
  - rewrite append_empty_l. simpl. apply find_last_of_None in H. rewrite H.
    apply Ascii.eqb_neq in Ha. by rewrite Ha.
  - rewrite append_String. simpl. by rewrite IH.
Qed.

Lemma find_last_of_lt (c : ascii) (s : string) (n : nat) :
  find_last_of c s = Some n -> (n < String.length s)%nat.
Proof.
  intros H. apply find_last_of_Some in H as (pre & post & -> & <- & _).
  rewrite length_append. simpl. lia.
Qed.

(** The position after the last [c], or [0] without one: what is before
    it ends with [c], and [c] does not occur after it. *)
Lemma after_last (c : ascii) (s : string) :
  let q := match find_last_of c s with None => O | Some n => S n end in
  exists pre, s = pre +:+ substr q s /\ String.length pre = q
              /\ hasChar c (substr q s) = false
              /\ (pre = "" \/ exists d, pre = d +:+ String c "").
Proof.
  cbv zeta. destruct (find_last_of c s) as [n|] eqn:E.
  - apply find_last_of_Some in E as (pre & post & -> & <- & Hp).
    exists (pre +:+ String c "").
    assert (Hsub : substr (S (String.length pre)) (pre +:+ String c post) = post).
    { replace (S (String.length pre))
        with (String.length (pre +:+ String c "")).
      - replace (pre +:+ String c post) with ((pre +:+ String c "") +:+ post).
        + apply substr_append.
        + by rewrite append_assoc.
      - rewrite length_append. simpl. lia. }
    rewrite Hsub. split; [|split; [|split]].
    + by rewrite append_assoc.
    + rewrite length_append. simpl. lia.
    + exact Hp.
    + right. by exists pre.
  - exists "". rewrite substr_0. split; [|split; [|split]];
      [reflexivity | reflexivity | by apply find_last_of_None | by left].
Qed.

(** ** [extractProgramName] *)

Lemma hasChar_after_last (c : ascii) (s : string) (m : nat) :
  (match find_last_of c s with None => O | Some n => S n end <= m)%nat ->
  hasChar c (substr m s) = false.
Proof.
  intros Hm. destruct (after_last c s) as (pre & Hs & Hl & Hc & _).
  rewrite Hs, substr_append_ge by lia. by apply hasChar_substr.
Qed.

Lemma extractProgramName_plain (win32 : bool) (s : string) :
  hasChar "/" s = false -> (win32 = true -> hasChar "\" s = false) ->
  priv.extractProgramName win32 s = s.
Proof.
  intros H1 H2. unfold priv.extractProgramName.
  apply find_last_of_None in H1. rewrite H1.
  destruct win32; [|apply substr_0].
  specialize (H2 eq_refl). apply find_last_of_None in H2. rewrite H2.
  apply substr_0.
Qed.

(** Property X1.
    The program name is the part of [argv[0]] after the last separator:
    [argv[0]] ends with it, no separator occurs in it, and what is cut
    off is empty or ends with a separator.  The separators are ['/'],
    and ['\'] too under [_WIN32]. *)
Theorem extractProgramName_after_last_separator
  (win32 : bool) (argv0 : string) :
  exists dir,
    argv0 = dir +:+ priv.extractProgramName win32 argv0
    /\ hasChar "/" (priv.extractProgramName win32 argv0) = false
    /\ (win32 = true ->
        hasChar "\" (priv.extractProgramName win32 argv0) = false)
    /\ (dir = ""
        \/ exists d, dir = d +:+ "/" \/ (win32 = true /\ dir = d +:+ "\")).
Proof.
  unfold priv.extractProgramName.
  destruct (after_last "/" argv0) as (pre1 & Hs1 & Hl1 & Hc1 & Hd1).
  destruct (after_last "\" argv0) as (pre2 & Hs2 & Hl2 & Hc2 & Hd2).
  cbv zeta in *.
  set (q1 := match find_last_of "/" argv0 with None => O | Some n => S n end) in *.
  set (q2 := match find_last_of "\" argv0 with None => O | Some n => S n end) in *.
  destruct win32.
  - destruct (Nat.ltb q1 q2) eqn:Hlt.
    + apply Nat.ltb_lt in Hlt. exists pre2.
      split; [exact Hs2|]. split; [|split; [intros _; exact Hc2|]].
      * apply hasChar_after_last. fold q1. lia.
      * destruct Hd2 as [-> | [d ->]]; [by left | right].
        exists d. right. by split.
    + apply Nat.ltb_ge in Hlt. exists pre1.
      split; [exact Hs1|]. split; [exact Hc1|]. split.
      * intros _. apply hasChar_after_last. fold q2. lia.
      * destruct Hd1 as [-> | [d ->]]; [by left | right].
        exists d. by left.
  - exists pre1. split; [exact Hs1|]. split; [exact Hc1|].
    split; [discriminate|].
    destruct Hd1 as [-> | [d ->]]; [by left | right]. exists d. by left.
Qed.

(** Property X2.
    A directory, a separator and a name without separators: the program
    name is that name. *)
Theorem extractProgramName_of_path
  (win32 : bool) (dir : string) (sep : ascii) (base : string) :
  sep = "/"%char \/ (win32 = true /\ sep = "\"%char) ->
  hasChar "/" base = false ->
  (win32 = true -> hasChar "\" base = false) ->
  priv.extractProgramName win32 (dir +:+ String sep base) = base.
Proof.
  intros Hsep H1 H2. unfold priv.extractProgramName.
  assert (Hcut : substr (S (String.length dir)) (dir +:+ String sep base) = base).
  { replace (S (String.length dir)) with (String.length (dir +:+ String sep "")).
    - replace (dir +:+ String sep base) with ((dir +:+ String sep "") +:+ base).
      + apply substr_append.
      + by rewrite append_assoc.
    - rewrite length_append. simpl. lia. }
  assert (Hle : forall c, (match find_last_of c dir with
                           | None => O | Some n => S n end
                           <= String.length dir)%nat).
  { intros c. destruct (find_last_of c dir) as [n|] eqn:E; [|lia].
    apply find_last_of_lt in E. lia. }
  destruct Hsep as [-> | [-> ->]].
  - rewrite (find_last_of_here _ _ _ H1).
    destruct win32; [|exact Hcut].
    rewrite (find_last_of_before "\" "/" _ _ (H2 eq_refl)) by discriminate.
    pose proof (Hle "\"%char) as Hb.
    destruct (Nat.ltb_spec (S (String.length dir))
                (match find_last_of "\" dir with
                 | None => O | Some n => S n end)); [lia | exact Hcut].
  - rewrite (find_last_of_before "/" "\" _ _ H1) by discriminate.
    rewrite (find_last_of_here _ _ _ (H2 eq_refl)).
    pose proof (Hle "/"%char) as Hb.
    destruct (Nat.ltb_spec (match find_last_of "/" dir with
                            | None => O | Some n => S n end)
                (S (String.length dir))); [exact Hcut | lia].
Qed.

Lemma extractProgramName_of_path_witness :
  priv.extractProgramName true ("C:\tools" +:+ String "\" "prog.exe")
  = "prog.exe".
Proof.
  apply (extractProgramName_of_path true "C:\tools" "\" "prog.exe").
  - right. split; reflexivity.
  - reflexivity.
  - intros _. reflexivity.
Defined.

(** Property X3.
    Extracting the program name twice changes nothing more. *)
Theorem extractProgramName_idempotent (win32 : bool) (argv0 : string) :
  priv.extractProgramName win32 (priv.extractProgramName win32 argv0)
  = priv.extractProgramName win32 argv0.
Proof.
  apply extractProgramName_plain.
  - unfold priv.extractProgramName. destruct win32.
    + destruct (Nat.ltb _ _) eqn:Hlt; apply hasChar_after_last.
      * apply Nat.ltb_lt in Hlt. lia.
      * lia.
    + apply hasChar_after_last. lia.
  - intros ->. unfold priv.extractProgramName.
    destruct (Nat.ltb _ _) eqn:Hlt; apply hasChar_after_last.
    + lia.
    + apply Nat.ltb_ge in Hlt. lia.
Qed.

(** ** The help messages *)

Lemma joinFlags_nonempty (sep acc : string) (fs : list string) :
  acc <> "" ->
  priv.joinFlags sep acc fs
  = match fs with
    | [] => acc
    | _ => acc +:+ sep +:+ String.concat sep fs
    end.
Proof.
  revert acc. induction fs as [|f fs IH]; intros acc Hacc; [reflexivity|].
  simpl priv.joinFlags. apply empty_false in Hacc as Hacc'. rewrite Hacc'.
  rewrite IH.
  - destruct fs as [|g fs]; simpl String.concat.
    + by rewrite append_assoc.
    + by rewrite !append_assoc.
  - destruct acc; [done | discriminate].
Qed.

(** Property X4.
    The alias list of an option is its flags joined by the separator,
    as [String.concat] joins them, when the first flag is not empty. *)
Theorem joinFlags_concat (sep : string) (fs : list string) :
  (forall f, head fs = Some f -> f <> "") ->
  priv.joinFlags sep "" fs = String.concat sep fs.
Proof.
  intros Hhead. destruct fs as [|f fs]; [reflexivity|].
  simpl priv.joinFlags. rewrite append_empty_l.
  rewrite joinFlags_nonempty by (apply Hhead; reflexivity).
  destruct fs; reflexivity.
Qed.

Lemma joinFlags_concat_witness :
  priv.joinFlags ", " "" ["-o"; "--output"] = String.concat ", " ["-o"; "--output"].
Proof.
  apply (joinFlags_concat ", " ["-o"; "--output"]).
  intros f Hf. injection Hf as <-. discriminate.
Defined.

Lemma occursIn_refl (s : string) : occursIn s s.
Proof. exists "", "". by rewrite append_empty_l, append_empty_r. Qed.

Lemma occursIn_append_r (s x t : string) :
  occursIn s t -> occursIn s (x +:+ t).
Proof.
  intros (pre & post & ->). exists (x +:+ pre), post.
  by rewrite append_assoc.
Qed.

Lemma occursIn_append_l (s t x : string) :
  occursIn s t -> occursIn s (t +:+ x).
Proof.
  intros (pre & post & ->). exists pre, (post +:+ x).
  by rewrite !append_assoc.
Qed.

Lemma helpOptions_line (options : list ProgramOption) (o : ProgramOption) :
  o ∈ options -> flags o <> [] ->
  occursIn
    ("  " +:+ priv.joinFlags ", " "" (flags o)
       +:+ spaces (20 - String.length (priv.joinFlags ", " "" (flags o)))
       +:+ description o +:+ nl)
    (priv.helpOptions options).
Proof.
  intros Ho Hf. induction options as [|x options IH];
    [by apply elem_of_nil in Ho|].
  simpl priv.helpOptions. apply elem_of_cons in Ho as [<- | Ho].
  - apply occursIn_append_l. destruct (flags o) as [|f fs] eqn:E; [done|].
    set (j := priv.joinFlags ", " "" (f :: fs)).
    destruct (Nat.ltb_spec (String.length j) 20) as [Hlt | Hge].
    + apply occursIn_refl.
    + replace (20 - String.length j)%nat with O by lia. apply occursIn_refl.
  - apply occursIn_append_r. by apply IH.
Qed.

(** Property X5.
    Every option with flags has its line in the help message: two
    spaces, the flags joined by [", "], the padding, the description and
    a line feed.  The padding puts the description at column 22, or
    right after the flags when they are 20 characters or more. *)
Theorem help_lists_every_option
  (win32 : bool) (argv0 : string) (options : list ProgramOption)
  (o : ProgramOption) :
  o ∈ options -> flags o <> [] ->
  occursIn
    ("  " +:+ priv.joinFlags ", " "" (flags o)
       +:+ spaces (20 - String.length (priv.joinFlags ", " "" (flags o)))
       +:+ description o +:+ nl)
    (priv.displayHelpMessage win32 argv0 options)
  /\ String.length
       ("  " +:+ priv.joinFlags ", " "" (flags o)
          +:+ spaces (20 - String.length (priv.joinFlags ", " "" (flags o))))
     = Nat.max 22 (2 + String.length (priv.joinFlags ", " "" (flags o))).
Proof.
  intros Ho Hf. split.
  - unfold priv.displayHelpMessage.
    destruct (priv.helpSummary options ("", "", "")) as [[about pos] hv].
    repeat match goal with
           | |- occursIn _ (?x +:+ _) =>
               lazymatch x with
               | priv.helpOptions _ => fail
               | _ => apply occursIn_append_r
               end
           end.
    apply occursIn_append_l. by apply helpOptions_line.
  - rewrite !length_append, length_spaces. simpl. lia.
Qed.

Lemma help_lists_every_option_witness :
  occursIn
    ("  " +:+ priv.joinFlags ", " "" (flags outputOption)
       +:+ spaces (20 - String.length
                          (priv.joinFlags ", " "" (flags outputOption)))
       +:+ description outputOption +:+ nl)
    (priv.displayHelpMessage false "prog" renameOptions)
  /\ String.length
       ("  " +:+ priv.joinFlags ", " "" (flags outputOption)
          +:+ spaces (20 - String.length
                             (priv.joinFlags ", " "" (flags outputOption))))
     = Nat.max 22
         (2 + String.length (priv.joinFlags ", " "" (flags outputOption))).
Proof.
  apply (help_lists_every_option false "prog" renameOptions outputOption).
  - apply list_elem_of_In. simpl. auto.
  - discriminate.
Defined.

Lemma helpSummary_names (options : list ProgramOption) :
  forall about pos hv,
    (priv.helpSummary options (about, pos, hv)).1.2
    = pos +:+ foldr (fun o acc => " " +:+ name o +:+ acc) ""
                (filter (fun o => listedByName o = true) options).
Proof.
  induction options as [|o options IH]; intros about pos hv.
  - simpl. by rewrite append_empty_r.
  - simpl priv.helpSummary. unfold listedByName at 1.
    rewrite filter_cons. unfold listedByName at 1.
    destruct (String.eqb (name o) "help") eqn:Eh.
    { rewrite IH. rewrite decide_False by (simpl; discriminate). reflexivity. }
    destruct (String.eqb (name o) "version") eqn:Ev.
    { rewrite IH. rewrite decide_False by (simpl; discriminate). reflexivity. }
    destruct (empty (name o)) eqn:Ee; simpl negb; cbv iota.
    + rewrite IH. rewrite decide_False by (simpl; discriminate). reflexivity.
    + rewrite IH. rewrite decide_True by reflexivity. simpl foldr.
      by rewrite !append_assoc.
Qed.

(** Property X6.
    The help message starts with the usage line: the program name
    extracted from [argv[0]], then [" [OPTIONS]"], then the names of the
    options that have a name other than [help] and [version], in the
    order of the schema: the positional option and the options that
    take a value alike. *)
Theorem help_starts_with_usage
  (win32 : bool) (argv0 : string) (options : list ProgramOption) :
  exists rest,
    priv.displayHelpMessage win32 argv0 options
    = "Usage: " +:+ priv.extractProgramName win32 argv0 +:+ " [OPTIONS]"
        +:+ foldr (fun o acc => " " +:+ name o +:+ acc) ""
              (filter (fun o => listedByName o = true) options)
        +:+ nl +:+ rest.
Proof.
  unfold priv.displayHelpMessage.
  pose proof (helpSummary_names options "" "" "") as Hn.
  destruct (priv.helpSummary options ("", "", "")) as [[about pos] hv].
  simpl in Hn. rewrite append_empty_l in Hn. rewrite Hn.
  eexists. reflexivity.
Qed.

Lemma windowsSummary_outcome (options : list ProgramOption) :
  forall acc,
    (priv.windowsSummary options acc = AssertionFailed
     /\ exists o, o ∈ options /\ name o = "" /\ flags o = [])
    \/ ((exists r, priv.windowsSummary options acc = Returned r)
        /\ forall o, o ∈ options -> name o = "" -> flags o <> []).
Proof.
  induction options as [|x options IH]; intros [[about fl] pos].
  - right. split; [by eexists|]. intros o Ho. by apply elem_of_nil in Ho.
  - assert (Hkeep : forall acc' W,
      W = priv.windowsSummary options acc' ->
      (name x = "" -> flags x <> []) ->
      (W = AssertionFailed
       /\ exists o, o ∈ x :: options /\ name o = "" /\ flags o = [])
      \/ ((exists r, W = Returned r)
          /\ forall o, o ∈ x :: options -> name o = "" -> flags o <> [])).
    { intros acc' W -> Hx.
      destruct (IH acc') as [[Hfail (o & Ho & Hn & Hf)] | [Hret Hall]].
      - left. split; [exact Hfail|]. exists o.
        split; [apply elem_of_cons; by right | by split].
      - right. split; [exact Hret|]. intros o Ho.
        apply elem_of_cons in Ho as [-> | Ho]; [exact Hx | by apply Hall]. }
    simpl priv.windowsSummary.
    destruct (String.eqb (name x) "help") eqn:Eh.
    { eapply Hkeep; [reflexivity|].
      apply String.eqb_eq in Eh. rewrite Eh. discriminate. }
    destruct (String.eqb (name x) "version") eqn:Ev.
    { eapply Hkeep; [reflexivity|].
      apply String.eqb_eq in Ev. rewrite Ev. discriminate. }
    destruct (empty (name x)) eqn:Ee.
    + destruct (flags x) as [|f fs] eqn:Ef.
      * left. split; [reflexivity|]. exists x.
        split; [apply elem_of_cons; by left|].
        split; [by apply empty_true | exact Ef].
      * eapply Hkeep; [reflexivity|]. intros _. discriminate.
    + eapply Hkeep; [reflexivity|].
      apply empty_false in Ee. intros Hn. by rewrite Hn in Ee.
Qed.

(** Property X8.
    [displayHelpMessageWindowsStyle] trips its [assert] exactly when the
    schema holds an option with neither a name nor a flag; otherwise it
    returns. *)
Theorem windows_help_assert
  (win32 : bool) (argv0 : string) (options : list ProgramOption) :
  (priv.displayHelpMessageWindowsStyle win32 argv0 options = AssertionFailed
   <-> exists o, o ∈ options /\ name o = "" /\ flags o = [])
  /\ (priv.displayHelpMessageWindowsStyle win32 argv0 options = AssertionFailed
      \/ exists msg,
           priv.displayHelpMessageWindowsStyle win32 argv0 options
           = Returned msg).
Proof.
  unfold priv.displayHelpMessageWindowsStyle.
  destruct (windowsSummary_outcome options ("", "", ""))
    as [[Hfail Hex] | [[[[about fl] pos] Hret] Hall]].
  - rewrite Hfail. split; [by split | by left].
  - rewrite Hret. split; [|right; by eexists].
    split; [discriminate|].
    intros (o & Ho & Hn & Hf). exfalso. exact (Hall o Ho Hn Hf).
Qed.

Lemma windowsOptions_line (options : list ProgramOption) (o : ProgramOption) :
  o ∈ options -> flags o <> [] ->
  occursIn
    ("  " +:+ priv.joinFlags ", " "" (flags o) +:+ nl
       +:+ spaces 8 +:+ description o +:+ nl)
    (priv.windowsOptions options).
Proof.
  intros Ho Hf. induction options as [|x options IH];
    [by apply elem_of_nil in Ho|].
  simpl priv.windowsOptions. apply elem_of_cons in Ho as [<- | Ho].
  - apply occursIn_append_l. destruct (flags o) as [|f fs] eqn:E; [done|].
    apply occursIn_refl.
  - apply occursIn_append_r. by apply IH.
Qed.

(** Property X9.
    When [displayHelpMessageWindowsStyle] returns, every option with
    flags has its two lines in the message: the flags joined by [", "]
    after two spaces, then the description after eight. *)
Theorem windows_help_lists_every_option
  (win32 : bool) (argv0 : string) (options : list ProgramOption)
  (msg : string) (o : ProgramOption) :
  priv.displayHelpMessageWindowsStyle win32 argv0 options = Returned msg ->
  o ∈ options -> flags o <> [] ->
  occursIn
    ("  " +:+ priv.joinFlags ", " "" (flags o) +:+ nl
       +:+ spaces 8 +:+ description o +:+ nl)
    msg.
Proof.
  unfold priv.displayHelpMessageWindowsStyle. intros Hmsg Ho Hf.
  destruct (priv.windowsSummary options ("", "", ""))
    as [[[about fl] pos] | | |]; try discriminate Hmsg.
  injection Hmsg as <-.
  repeat match goal with
         | |- occursIn _ (?x +:+ _) =>
             lazymatch x with
             | priv.windowsOptions _ => fail
             | _ => apply occursIn_append_r
             end
         end.
  apply occursIn_append_l. by apply windowsOptions_line.
Qed.

Lemma windows_help_lists_every_option_witness :
  occursIn
    ("  " +:+ priv.joinFlags ", " "" (flags outputOption) +:+ nl
       +:+ spaces 8 +:+ description outputOption +:+ nl)
    ("Simple program to rename a file." +:+ nl +:+ nl
       +:+ "prog [--verbose] input output" +:+ nl +:+ nl
       +:+ priv.windowsOptions renameOptions +:+ nl).
Proof.
  apply (windows_help_lists_every_option false "/usr/bin/prog" renameOptions
           _ outputOption).
  - reflexivity.
  - apply list_elem_of_In. simpl. auto.
  - discriminate.
Defined.

(** ** The constructors *)

Lemma back_None (s : string) : back s = None <-> s = "".
Proof.
  induction s as [|c s IH]; [done|]. simpl.
  destruct s; [done|]. rewrite IH. done.
Qed.

Lemma startsDash_bareToken (s : string) :
  startsDash s = true -> bareToken s = false.
Proof.
  unfold startsDash, bareToken. destruct (front s); [|done].
  intros ->. reflexivity.
Qed.

Lemma filter_dash_cons (f : string) (fs : list string) :
  filter (fun x => startsDash x = true) (f :: fs)
  = if startsDash f then f :: filter (fun x => startsDash x = true) fs
    else filter (fun x => startsDash x = true) fs.
Proof.
  rewrite filter_cons. destruct (startsDash f); [by rewrite decide_True|].
  by rewrite decide_False.
Qed.

Lemma filter_bare_cons (f : string) (fs : list string) :
  filter (fun x => bareToken x = true) (f :: fs)
  = if bareToken f then f :: filter (fun x => bareToken x = true) fs
    else filter (fun x => bareToken x = true) fs.
Proof.
  rewrite filter_cons. destruct (bareToken f); [by rewrite decide_True|].
  by rewrite decide_False.
Qed.

(** The loop of the second constructor in the embedding, where
    [front()] on an empty token ends the run: it returns exactly when no
    token is empty and at most one token does not start with ['-'] (none
    when a name is already there); the tokens that start with ['-'] are
    added to the flags in their order and the other token becomes the
    name. *)
Lemma collectFlags_returned (fs : list string) :
  forall opt o,
    collectFlags fs opt = Returned o <->
    ("" ∉ fs)
    /\ flags o = (flags opt ++ filter (fun f => startsDash f = true) fs)%list
    /\ description o = description opt
    /\ defaultValue o = defaultValue opt
    /\ ((filter (fun f => bareToken f = true) fs = [] /\ name o = name opt)
        \/ (name opt = ""
            /\ filter (fun f => bareToken f = true) fs = [name o])).
Proof.
  induction fs as [|f fs IH]; intros opt o.
  - simpl. split.
    + intros H. injection H as <-. rewrite app_nil_r.
      repeat split; [by intros H%elem_of_nil | by left].
    + intros (_ & Hf & Hd & Hv & [[_ Hn] | [_ Hn]]); [|discriminate Hn].
      rewrite app_nil_r in Hf. destruct o, opt; simpl in *. by subst.
  - rewrite filter_dash_cons, filter_bare_cons. simpl collectFlags.
    destruct (token_cases f) as [-> | [Hd | Hb]].
    + simpl. split; [discriminate|]. intros (Hno & _). exfalso.
      apply Hno. apply elem_of_cons. by left.
    + rewrite (startsDash_bareToken _ Hd), Hd.
      apply startsDash_front in Hd as Hfr. rewrite Hfr, Ascii.eqb_refl.
      rewrite IH. simpl. rewrite <- app_assoc. simpl.
      assert (Hne : "" ∉ f :: fs <-> "" ∉ fs).
      { rewrite elem_of_cons. split; [tauto|].
        intros H [E | E]; [|tauto]. by rewrite <- E in Hfr. }
      rewrite Hne. reflexivity.
    + rewrite (bareToken_not_dash _ Hb), Hb.
      pose proof (bareToken_nonempty _ Hb) as Hfne.
      assert (Hne : "" ∉ f :: fs <-> "" ∉ fs).
      { rewrite elem_of_cons. split; [tauto|].
        intros H [E | E]; [congruence | tauto]. }
      unfold bareToken in Hb. destruct (front f) as [c|]; [|discriminate].
      apply negb_true_iff in Hb. rewrite Hb. unfold assert.
      destruct (empty (name opt)) eqn:Ee.
      * apply empty_true in Ee. rewrite IH, Hne, Ee. simpl.
        split.
        -- intros (H1 & H2 & H3 & H4 & [[H5 H6] | [H5 _]]); [|congruence].
           repeat split; auto. right. split; [reflexivity|].
           by rewrite H5, H6.
        -- intros (H1 & H2 & H3 & H4 & [[H5 _] | [_ H5]]); [discriminate|].
           injection H5 as H5 H6. repeat split; auto.
      * apply empty_false in Ee. split; [discriminate|].
        intros (_ & _ & _ & _ & [[H _] | [H _]]); [discriminate | contradiction].
Qed.

(** Without an empty token the loop returns or fails its [assert]. *)
Lemma collectFlags_outcome (fs : list string) :
  "" ∉ fs ->
  forall opt,
    (exists o, collectFlags fs opt = Returned o)
    \/ collectFlags fs opt = AssertionFailed.
Proof.
  induction fs as [|f fs IH]; intros Hno opt; [left; by eexists|].
  assert (Hf : f <> "").
  { intros ->. apply Hno. apply elem_of_cons. by left. }
  assert (Hfs : "" ∉ fs).
  { intros H. apply Hno. apply elem_of_cons. by right. }
  simpl. destruct f as [|c f]; [done|]. simpl.
  destruct (Ascii.eqb c "-"); [by apply IH|].
  unfold assert. destruct (empty (name opt)); [by apply IH | by right].
Qed.

(** Property X10.
    Take a call of the constructor from a list of tokens with a
    description that is not empty and without an empty token, the calls
    on which [back()] and [front()] are defined.  It returns an option
    exactly when the description does not end with ['.'] and at most one
    token does not start with ['-']; the option then has the tokens that
    start with ['-'] as its flags, in their order, the other token, if
    any, as its name, and the description and the default given.  It
    fails an [assert] exactly when the description ends with ['.'] or
    two tokens or more do not start with ['-']. *)
Theorem ProgramOption_flagged_returned
  (optFlags : list string) (optDescr optDefVal : string)
  (o : ProgramOption) :
  optDescr <> "" -> "" ∉ optFlags ->
  (ProgramOption_flagged optFlags optDescr optDefVal = Returned o <->
   back optDescr <> Some "."%char
   /\ flags o = filter (fun f => startsDash f = true) optFlags
   /\ description o = optDescr
   /\ defaultValue o = optDefVal
   /\ ((filter (fun f => bareToken f = true) optFlags = [] /\ name o = "")
       \/ filter (fun f => bareToken f = true) optFlags = [name o]))
  /\ (ProgramOption_flagged optFlags optDescr optDefVal = AssertionFailed <->
      back optDescr = Some "."%char
      \/ (2 <= List.length
                 (filter (fun f => bareToken f = true) optFlags))%nat).
Proof.
  intros Hd Hno. unfold ProgramOption_flagged.
  destruct (back optDescr) as [c|] eqn:Eb; [|by apply back_None in Eb].
  unfold assert. destruct (Ascii.eqb c ".") eqn:Ec; simpl negb; cbv iota.
  { apply Ascii.eqb_eq in Ec as ->. split.
    - split; [discriminate|]. intros (H & _). congruence.
    - split; [by left | reflexivity]. }
  apply Ascii.eqb_neq in Ec.
  assert (Hc : Some c <> Some "."%char) by congruence.
  set (opt0 := {| name := ""; flags := []; description := optDescr;
                  defaultValue := optDefVal |}).
  assert (Hret : forall o',
    collectFlags optFlags opt0 = Returned o' <->
    flags o' = filter (fun f => startsDash f = true) optFlags
    /\ description o' = optDescr /\ defaultValue o' = optDefVal
    /\ ((filter (fun f => bareToken f = true) optFlags = [] /\ name o' = "")
        \/ filter (fun f => bareToken f = true) optFlags = [name o'])).
  { intros o'. rewrite collectFlags_returned. simpl. split.
    - intros (_ & H2 & H3 & H4 & H5). repeat split; auto.
      destruct H5 as [H5 | [_ H5]]; auto.
    - intros (H2 & H3 & H4 & H5). repeat split; auto.
      destruct H5 as [H5 | H5]; auto. }
  split.
  - rewrite Hret. split; [intros H; by split | intros [_ H]; exact H].
  - split.
    + intros Hfail. right.
      destruct (filter (fun f => bareToken f = true) optFlags)
        as [|n [|m l]] eqn:Ef; [| |simpl; lia]; exfalso.
      * assert (Hr : collectFlags optFlags opt0
                     = Returned {| name := "";
                                   flags := filter (fun f => startsDash f = true)
                                              optFlags;
                                   description := optDescr;
                                   defaultValue := optDefVal |}).
        { apply Hret. simpl. repeat split; auto. }
        congruence.
      * assert (Hr : collectFlags optFlags opt0
                     = Returned {| name := n;
                                   flags := filter (fun f => startsDash f = true)
                                              optFlags;
                                   description := optDescr;
                                   defaultValue := optDefVal |}).
        { apply Hret. simpl. repeat split; auto. }
        congruence.
    + intros [H | Hlen]; [congruence|].
      destruct (collectFlags_outcome optFlags Hno opt0) as [[o' Ho'] | Hf];
        [|exact Hf].
      exfalso. apply Hret in Ho' as (_ & _ & _ & [[H _] | H]);
        rewrite H in Hlen; simpl in Hlen; lia.
Qed.

Lemma ProgramOption_flagged_returned_witness :
  (ProgramOption_flagged ["-o"; "--output"; "output"] "Output file name"
     "output.txt" = Returned outputOption <->
   back "Output file name" <> Some "."%char
   /\ flags outputOption
      = filter (fun f => startsDash f = true) ["-o"; "--output"; "output"]
   /\ description outputOption = "Output file name"
   /\ defaultValue outputOption = "output.txt"
   /\ ((filter (fun f => bareToken f = true) ["-o"; "--output"; "output"] = []
        /\ name outputOption = "")
       \/ filter (fun f => bareToken f = true) ["-o"; "--output"; "output"]
          = [name outputOption]))
  /\ (ProgramOption_flagged ["-o"; "--output"; "output"] "Output file name"
        "output.txt" = AssertionFailed <->
      back "Output file name" = Some "."%char
      \/ (2 <= List.length
                 (filter (fun f => bareToken f = true)
                    ["-o"; "--output"; "output"]))%nat).
Proof.
  apply (ProgramOption_flagged_returned ["-o"; "--output"; "output"]
           "Output file name" "output.txt" outputOption).
  - discriminate.
  - intros H. apply list_elem_of_In in H. simpl in H.
    destruct H as [H | [H | [H | H]]]; (discriminate H || exact H).
Defined.

(** Property X11.
    Take a call of the constructor from a name with a description that
    is not empty, the calls on which [back()] is defined.  It fails an
    [assert] exactly when the description ends with ['.'] or a default
    is given with one of the reserved names [help] and [version];
    otherwise it returns an option with the name given, whose flags all
    start with ['-'] and are there exactly for the reserved names. *)
Theorem ProgramOption_named_failures
  (optName optDescr optDefVal : string) :
  optDescr <> "" ->
  (ProgramOption_named optName optDescr optDefVal = AssertionFailed
   <-> back optDescr = Some "."%char
       \/ ((optName = "help" \/ optName = "version") /\ optDefVal <> ""))
  /\ (ProgramOption_named optName optDescr optDefVal = AssertionFailed
      \/ exists o,
           ProgramOption_named optName optDescr optDefVal = Returned o
           /\ name o = optName
           /\ (flags o <> [] <-> optName = "help" \/ optName = "version")
           /\ Forall (fun f => startsDash f = true) (flags o)).
Proof.
  intros Hd. unfold ProgramOption_named, assert.
  destruct (back optDescr) as [c|] eqn:Eb; [|by apply back_None in Eb].
  destruct (Ascii.eqb c ".") eqn:Ec; simpl negb; cbv iota.
  { apply Ascii.eqb_eq in Ec as ->.
    split; [split; [by left | reflexivity] | by left]. }
  apply Ascii.eqb_neq in Ec.
  assert (Hc : Some c <> Some "."%char) by congruence.
  apply empty_false in Hd as Hde. rewrite Hde. simpl negb. cbv iota.
  destruct (String.eqb optName "help") eqn:Eh;
    [apply String.eqb_eq in Eh as ->
    | destruct (String.eqb optName "version") eqn:Ev;
      [apply String.eqb_eq in Ev as -> | ]].
  - destruct (empty optDefVal) eqn:Ee;
      [apply empty_true in Ee as -> | apply empty_false in Ee].
    + split.
      * split; [discriminate|]. intros [H | [_ H]]; done.
      * right. eexists. split; [reflexivity|]. split; [done|].
        split; [split; [auto | discriminate] | repeat constructor].
    + split; [|by left]. split; [|done]. intros _. right. auto.
  - destruct (empty optDefVal) eqn:Ee;
      [apply empty_true in Ee as -> | apply empty_false in Ee].
    + split.
      * split; [discriminate|]. intros [H | [_ H]]; done.
      * right. eexists. split; [reflexivity|]. split; [done|].
        split; [split; [auto | discriminate] | repeat constructor].
    + split; [|by left]. split; [|done]. intros _. right. auto.
  - apply String.eqb_neq in Eh, Ev. split.
    + split; [discriminate|]. intros [H | [[H | H] _]]; done.
    + right. eexists. split; [reflexivity|]. split; [done|].
      split; [|constructor]. simpl. split; [done | intros [H | H]; done].
Qed.

Lemma ProgramOption_named_failures_witness :
  (ProgramOption_named "help" "Simple program to rename a file" "x"
   = AssertionFailed
   <-> back "Simple program to rename a file" = Some "."%char
       \/ (("help" = "help" \/ "help" = "version") /\ "x" <> ""))
  /\ (ProgramOption_named "help" "Simple program to rename a file" "x"
      = AssertionFailed
      \/ exists o,
           ProgramOption_named "help" "Simple program to rename a file" "x"
           = Returned o
           /\ name o = "help"
           /\ (flags o <> [] <-> "help" = "help" \/ "help" = "version")
           /\ Forall (fun f => startsDash f = true) (flags o)).
Proof.
  apply (ProgramOption_named_failures "help"
           "Simple program to rename a file" "x").
  discriminate.
Defined.

(** ** The checks on the schema *)

Lemma registerFlags_outcome (opt : ProgramOption) (names : list string) :
  forall a r,
    (exists x, registerFlags opt names a r = Returned x
               /\ NoDup names /\ forall f, f ∈ names -> a !! f = None)
    \/ (registerFlags opt names a r = AssertionFailed
        /\ ~ (NoDup names /\ forall f, f ∈ names -> a !! f = None)).
Proof.
  induction names as [|f names IH]; intros a r.
  - left. eexists. split; [reflexivity|]. split; [constructor|].
    intros f Hf. by apply elem_of_nil in Hf.
  - simpl. unfold assert. case_bool_decide as Hf.
    + destruct (IH (<[f := opt]> a) (<[f := defaultValue opt]> r))
        as [(x & Hx & Hnd & Hnew) | [Hfail Hnot]].
      * assert (Hfn : f ∉ names).
        { intros Hin. specialize (Hnew f Hin).
          rewrite lookup_insert_eq in Hnew. discriminate. }
        left. exists x. split; [exact Hx|]. split; [by apply NoDup_cons|].
        intros g Hg. apply elem_of_cons in Hg as [-> | Hg]; [exact Hf|].
        specialize (Hnew g Hg). rewrite lookup_insert_ne in Hnew; [done|].
        intros ->. done.
      * right. split; [exact Hfail|]. intros [Hnd Hnew]. apply Hnot.
        apply NoDup_cons in Hnd as [Hfn Hnd]. split; [exact Hnd|].
        intros g Hg. rewrite lookup_insert_ne; [|intros ->; done].
        apply Hnew. apply elem_of_cons. by right.
    + right. split; [reflexivity|]. intros [_ Hnew]. apply Hf, Hnew.
      apply elem_of_cons. by left.
Qed.

Lemma isPositional_name (opt : ProgramOption) :
  isPositional opt = true -> name opt <> "".
Proof.
  unfold isPositional. rewrite !andb_true_iff, negb_true_iff.
  intros [[[H _] _] _]. by apply empty_false.
Qed.

Lemma filter_positional_cons (opt : ProgramOption)
  (options : list ProgramOption) :
  filter (fun o => isPositional o = true) (opt :: options)
  = if isPositional opt
    then opt :: filter (fun o => isPositional o = true) options
    else filter (fun o => isPositional o = true) options.
Proof.
  rewrite filter_cons. destruct (isPositional opt);
    [by rewrite decide_True | by rewrite decide_False].
Qed.

(** [buildTables] returns exactly when no flag is registered twice, by
    the schema or before it, and the [assert] on the positional option
    holds each time; otherwise an [assert] fails. *)
Lemma buildTables_outcome (options : list ProgramOption) :
  forall t0,
    let fine :=
      NoDup (List.concat (List.map flags options))
      /\ (forall f, f ∈ List.concat (List.map flags options) -> allFlags t0 !! f = None)
      /\ (List.length (filter (fun o => isPositional o = true) options)
          + (if empty (name (positionalOption t0)) then 0 else 1) <= 1)%nat in
    (exists t, buildTables options t0 = Returned t /\ fine)
    \/ (buildTables options t0 = AssertionFailed /\ ~ fine).
Proof.
  induction options as [|opt options IH]; intros t0; cbv zeta.
  - left. exists t0. split; [reflexivity|]. split; [constructor|].
    split; [intros f Hf; by apply elem_of_nil in Hf|].
    simpl. destruct (empty _); lia.
  - simpl buildTables. simpl List.concat. rewrite filter_positional_cons.
    destruct (registerFlags_outcome opt (flags opt) (allFlags t0) (result t0))
      as [([a1 r1] & Hreg & Hnd & Hnew) | [Hfail Hnot]].
    2:{ right. rewrite Hfail. split; [reflexivity|].
        intros (Hnd & Hnew & _). apply Hnot.
        apply NoDup_app in Hnd as (Hnd & _ & _). split; [exact Hnd|].
        intros f Hf. apply Hnew. apply elem_of_app. by left. }
    rewrite Hreg. cbv beta iota delta [mbind outcome_bind].
    apply registerFlags_returned in Hreg as (_ & Ha & _).
    assert (Hrest : forall p1,
      (NoDup (List.concat (List.map flags options))
       /\ (forall f, f ∈ List.concat (List.map flags options) -> a1 !! f = None)
       /\ (List.length (filter (fun o => isPositional o = true) options)
           + (if empty (name p1) then 0 else 1) <= 1)%nat)
      <-> (NoDup (flags opt ++ List.concat (List.map flags options))%list
           /\ (forall f, f ∈ (flags opt ++ List.concat (List.map flags options))%list ->
                         allFlags t0 !! f = None)
           /\ (List.length (filter (fun o => isPositional o = true) options)
               + (if empty (name p1) then 0 else 1) <= 1)%nat)).
    { intros p1. rewrite NoDup_app. split.
      - intros (H1 & H2 & H3). split; [|split; [|exact H3]].
        + split; [exact Hnd|]. split; [|exact H1].
          intros f Hf Hin. specialize (H2 f Hin). rewrite Ha in H2.
          rewrite decide_True in H2 by exact Hf. discriminate.
        + intros f Hf. apply elem_of_app in Hf as [Hf | Hf]; [by apply Hnew|].
          specialize (H2 f Hf). rewrite Ha in H2.
          destruct (decide (f ∈ flags opt)); [discriminate | exact H2].
      - intros ((_ & Hdisj & H1) & H2 & H3). split; [exact H1|].
        split; [|exact H3]. intros f Hf. rewrite Ha.
        rewrite decide_False by (intros Hin; exact (Hdisj f Hin Hf)).
        apply H2. apply elem_of_app. by right. }
    destruct (isPositional opt) eqn:Hpos.
    + unfold assert. destruct (empty (name (positionalOption t0))) eqn:Ee.
      * destruct (IH {| allFlags := a1; result := r1;
                        positionalOption := opt |})
          as [(t & Ht & Hfine) | [Hfail Hnot]]; cbv zeta in *; simpl in *.
        -- left. exists t. split; [exact Ht|].
           apply Hrest in Hfine as (H1 & H2 & H3). split; [exact H1|].
           split; [exact H2|].
           apply isPositional_name, empty_false in Hpos. rewrite Hpos in H3.
           lia.
        -- right. split; [exact Hfail|]. intros (H1 & H2 & H3). apply Hnot.
           apply Hrest. split; [exact H1|]. split; [exact H2|].
           apply isPositional_name, empty_false in Hpos. rewrite Hpos.
           lia.
      * right. split; [reflexivity|]. intros (_ & _ & H). simpl in H. lia.
    + destruct (IH {| allFlags := a1; result := r1;
                      positionalOption := positionalOption t0 |})
        as [(t & Ht & Hfine) | [Hfail Hnot]]; cbv zeta in *; simpl in *.
      * left. exists t. split; [exact Ht|]. by apply Hrest.
      * right. split; [exact Hfail|]. intros Hfine. apply Hnot.
        by apply Hrest.
Qed.

(** Property X12.
    [parse] accepts a schema exactly when no flag occurs twice in it and
    at most one of its options is positional: then the tables are built,
    and otherwise [parse] ends on a failed [assert] for every argument
    vector. *)
Theorem schema_checked_by_asserts (options : list ProgramOption) :
  ((exists t, buildTables options initialTables = Returned t)
   <-> NoDup (List.concat (List.map flags options))
       /\ (List.length (filter (fun o => isPositional o = true) options)
           <= 1)%nat)
  /\ ((exists t, buildTables options initialTables = Returned t)
      \/ forall win32 argv, parse win32 argv options = AssertionFailed).
Proof.
  destruct (buildTables_outcome options initialTables)
    as [(t & Ht & Hnd & _ & Hp) | [Hfail Hnot]]; cbv zeta in *; simpl in *.
  - split; [|left; by exists t]. split; [|by exists t].
    intros _. split; [exact Hnd | lia].
  - split.
    + split; [intros [t Ht]; congruence|]. intros [Hnd Hp]. exfalso.
      apply Hnot. split; [exact Hnd|]. split; [|lia].
      intros f _. apply lookup_empty.
    + right. intros win32 argv. unfold parse. rewrite Hfail. reflexivity.
Qed.

(** Property X13.
    When the tables are built, each flag of each option leads to its
    option in the table and to the default of its option in the result
    map, and the positional option is the one option of the schema that
    is positional, if there is one. *)
Theorem tables_hold_the_schema
  (options : list ProgramOption) (t : tables) :
  buildTables options initialTables = Returned t ->
  (forall o f, o ∈ options -> f ∈ flags o ->
     allFlags t !! f = Some o /\ result t !! f = Some (defaultValue o))
  /\ filter (fun o => isPositional o = true) options
     = (if empty (name (positionalOption t)) then []
        else [positionalOption t]).
Proof.
  intros Hbuild. split.
  - intros o f Ho Hf.
    pose proof (registered _ _ Hbuild _ _ Ho Hf) as Ht.
    pose proof Hbuild as Hb.
    apply buildTables_initial in Hb as (_ & Hseed & _).
    split; [exact Ht | by rewrite Hseed, Ht].
  - assert (Hgen : forall options t0 t,
      buildTables options t0 = Returned t ->
      ((if empty (name (positionalOption t0)) then []
        else [positionalOption t0]) ++
       filter (fun o => isPositional o = true) options)%list
      = (if empty (name (positionalOption t)) then []
         else [positionalOption t])).
    { clear. induction options as [|opt options IH]; intros t0 t H.
      - injection H as <-. by rewrite app_nil_r.
      - simpl in H. rewrite filter_positional_cons.
        destruct (registerFlags opt (flags opt) (allFlags t0) (result t0))
          as [[a1 r1] | | |]; try discriminate H.
        cbv beta iota delta [mbind outcome_bind] in H.
        destruct (isPositional opt) eqn:Hpos.
        + unfold assert in H.
          destruct (empty (name (positionalOption t0))) eqn:Ee;
            [|discriminate H].
          apply IH in H. simpl in H.
          apply isPositional_name, empty_false in Hpos. rewrite Hpos in H.
          exact H.
        + apply IH in H. exact H. }
    apply (Hgen _ _ _ Hbuild).
Qed.

Lemma tables_hold_the_schema_witness :
  (forall o f, o ∈ renameOptions -> f ∈ flags o ->
     allFlags renameTables !! f = Some o
     /\ result renameTables !! f = Some (defaultValue o))
  /\ filter (fun o => isPositional o = true) renameOptions
     = (if empty (name (positionalOption renameTables)) then []
        else [positionalOption renameTables]).
Proof.
  apply (tables_hold_the_schema renameOptions renameTables).
  reflexivity.
Defined.

(** ** More on the loop of [parse] *)

Section ScanMore.

Variable win32 : bool.
Variable argv0 : option string.
Variable options : list ProgramOption.
Variable tbl : gmap string ProgramOption.

Local Abbreviation loop := (processArgs win32 argv0 options tbl).
Local Abbreviation run := (scan win32 argv0 options tbl).

(** The loop only adds keys. *)
Lemma scan_keys_kept (toks : list string) (r r' : gmap string string)
  (p p' : ProgramOption) (k : string) :
  run toks r p (Returned (r', p')) ->
  is_Some (r !! k) -> is_Some (r' !! k).
Proof.
  intros H. remember (Returned (r', p')) as o eqn:E. revert E.
  induction H; intros E Hk; try discriminate E;
    try (exfalso; exact (exitWithHelp_not_returned _ _ _ _ _ _ E)).
  - by injection E as -> ->.
  - apply IHscan; [exact E|]. rewrite lookup_insert. case_decide; eauto.
  - apply IHscan; [exact E|]. rewrite lookup_insert. case_decide; eauto.
  - apply IHscan; [exact E|]. rewrite lookup_insert. case_decide; eauto.
Qed.

(** The exits of the loop.  Code 0 comes from a flag of [help], with the
    help message on the output stream, or from a flag of [version], with
    the version string and a line feed; nothing goes to the error
    stream.  Code 1 comes with a line that starts with ["Error: "] on
    the error stream, and with the help message on the output stream,
    except for a missing value of an option, where the output stream
    stays empty. *)
Local Abbreviation exitShape toks code out err :=
  ((code = 0 /\ err = ""
    /\ exists f o, f ∈ toks /\ tbl !! f = Some o
         /\ ((name o = "help"
              /\ exists a, argv0 = Some a
                   /\ out = priv.displayHelpMessage win32 a options)
             \/ (name o = "version" /\ out = defaultValue o +:+ nl)))
   \/ (code = 1 /\ (exists msg, err = "Error: " +:+ msg)
       /\ ((exists a, argv0 = Some a
              /\ out = priv.displayHelpMessage win32 a options)
           \/ (out = ""
               /\ exists f o, f ∈ toks /\ tbl !! f = Some o
                    /\ takesValue o = true
                    /\ err = missingOptionValue f o)))).



(** A run that returns from a flag without a name found no value under
    the empty key. *)
Lemma scan_flag_returned (f : string) (rest : list string)
  (r : gmap string string) (p : ProgramOption) (o : ProgramOption)
  (st : gmap string string * ProgramOption) :
  run (f :: rest) r p (Returned st) ->
  startsDash f = true -> tbl !! f = Some o -> name o = "" ->
  value_at r "" = "" /\ run rest (<["" := "true"]> r) p (Returned st).
Proof.
  intros H Hd Ht Hn. apply processArgs_scan in H.
  rewrite (processArgs_dash _ _ _ _ _ _ _ _ Hd), Ht, Hn in H.
  simpl in H. rewrite setValue_eq, Hn in H.
  destruct (empty (value_at r "")) eqn:Ee; [|discriminate H].
  split; [by apply empty_true|]. by apply processArgs_scan.
Qed.

(** A run that returns from a flag of an option that takes a value found
    a next token, no value under the name of the option, and went on
    with the token bound. *)
Lemma scan_value_returned (f : string) (rest : list string)
  (r : gmap string string) (p : ProgramOption) (o : ProgramOption)
  (st : gmap string string * ProgramOption) :
  run (f :: rest) r p (Returned st) ->
  startsDash f = true -> tbl !! f = Some o -> takesValue o = true ->
  exists v rest', rest = v :: rest' /\ startsDash v = false
    /\ value_at r (name o) = ""
    /\ run rest' (<[name o := v]> r) p (Returned st).
Proof.
  intros H Hd Ht Hv. apply processArgs_scan in H.
  rewrite (processArgs_dash _ _ _ _ _ _ _ _ Hd), Ht in H.
  apply takesValue_tests in Hv as (Hv1 & Hv2 & Hv3).
  rewrite Hv1, Hv2, Hv3 in H. simpl in H.
  destruct rest as [|v rest']; [discriminate H|]. exists v, rest'.
  destruct (startsDash v); [discriminate H|]. rewrite setValue_eq in H.
  destruct (empty (value_at r (name o))) eqn:Ee; [|discriminate H].
  split; [reflexivity|]. split; [reflexivity|].
  split; [by apply empty_true|]. by apply processArgs_scan.
Qed.

(** Once a key holds a value that is not empty, a run that returns does
    not reach a flag that would write under this key. *)
Lemma scan_no_second_binding (toks : list string) (r : gmap string string)
  (p : ProgramOption) (st : gmap string string * ProgramOption)
  (pre : list string) (f : string) (rest : list string) (o : ProgramOption) :
  run toks r p (Returned st) ->
  toks = (pre ++ f :: rest)%list ->
  startsDash f = true -> tbl !! f = Some o ->
  name o = "" \/ takesValue o = true ->
  value_at r (name o) = "".
Proof.
  intros H -> Hd Ht Ho.
  destruct (scan_split_dash _ _ _ _ _ _ _ _ H _ _ _ eq_refl Hd)
    as (r1 & p1 & Hpre & Hf).
  assert (Hr1 : value_at r1 (name o) = "").
  { destruct Ho as [Hn | Hv].
    - rewrite Hn. by destruct (scan_flag_returned _ _ _ _ _ _ Hf Hd Ht Hn).
    - by destruct (scan_value_returned _ _ _ _ _ _ Hf Hd Ht Hv)
        as (v & rest' & _ & _ & Hr & _). }
  destruct (decide (value_at r (name o) = "")) as [E | E]; [exact E|].
  rewrite <- (scan_stable _ _ _ _ _ _ _ _ _ _ Hpre E). exact Hr1.
Qed.

End ScanMore.

(** ** More on [parse] *)

Lemma parse_returned_positional (win32 : bool) (argv : list string)
  (options : list ProgramOption) (t : tables) (res : gmap string string) :
  buildTables options initialTables = Returned t ->
  parse win32 argv options = Returned res ->
  exists p', scanned win32 argv options t (tail argv) (res, p')
             /\ name p' = "".
Proof.
  intros Hbuild. unfold parse, scanned. rewrite Hbuild.
  cbv beta iota delta [mbind outcome_bind].
  destruct (processArgs win32 (head argv) options (allFlags t) (tail argv)
              (result t) (positionalOption t)) as [[r1 p1] | | |];
    try discriminate.
  rewrite checkPositional_eq. intros H. exists p1.
  destruct (empty (name p1)) eqn:Ee; simpl in H.
  - injection H as <-. split; [reflexivity | by apply empty_true].
  - destruct (empty (value_at r1 (name p1))); [|discriminate H].
    exfalso. exact (exitWithHelp_not_returned _ _ _ _ _ _ H).
Qed.

(** Property X15.
    When [parse] returns, the map holds a value under every flag of the
    schema; and either the schema has no positional option and the input
    no bare token, or the input has exactly one bare token and the map
    holds it under the name of the positional option. *)
Theorem returned_map_holds_every_key
  (win32 : bool) (argv : list string) (options : list ProgramOption)
  (t : tables) (res : gmap string string) :
  buildTables options initialTables = Returned t ->
  parse win32 argv options = Returned res ->
  (forall o f, o ∈ options -> f ∈ flags o -> is_Some (res !! f))
  /\ ((name (positionalOption t) = ""
       /\ bareTokens (allFlags t) (tail argv) = [])
      \/ exists b, bareTokens (allFlags t) (tail argv) = [b]
                   /\ res !! name (positionalOption t) = Some b).
Proof.
  intros Hbuild Hparse.
  destruct (parse_returned_positional _ _ _ _ _ Hbuild Hparse)
    as (p' & Hscan & Hp').
  apply processArgs_scan in Hscan. split.
  - intros o f Ho Hf. eapply scan_keys_kept; [exact Hscan|].
    pose proof Hbuild as Hb.
    apply buildTables_initial in Hb as (_ & Hseed & _).
    rewrite Hseed, (registered _ _ Hbuild _ _ Ho Hf). by eexists.
  - destruct (scan_positional _ _ _ _ _ _ _ _ _ Hscan)
      as [[Hnone ->] | (b & Hone & Hb & _ & _ & Hval)].
    + left. by split.
    + right. exists b. split; [exact Hone|].
      apply value_at_lookup; [exact Hval | by apply bareToken_nonempty].
Qed.

Lemma returned_map_holds_every_key_witness :
  (forall o f, o ∈ renameOptions -> f ∈ flags o ->
     is_Some (<["output" := "b.txt"]>
                (<["input" := "a.txt"]> (result renameTables)) !! f))
  /\ ((name (positionalOption renameTables) = ""
       /\ bareTokens (allFlags renameTables)
            (tail ["prog"; "a.txt"; "-o"; "b.txt"]) = [])
      \/ exists b, bareTokens (allFlags renameTables)
                     (tail ["prog"; "a.txt"; "-o"; "b.txt"]) = [b]
                   /\ <["output" := "b.txt"]>
                        (<["input" := "a.txt"]> (result renameTables))
                      !! name (positionalOption renameTables) = Some b).
Proof.
  apply (returned_map_holds_every_key false ["prog"; "a.txt"; "-o"; "b.txt"]
           renameOptions renameTables).
  - reflexivity.
  - reflexivity.
Defined.



(** Property X17.
    [parse] does not return from an input with two flags that have no
    name: the first one leaves ["true"] under the empty key, and the
    [assert] of [setValue] stops the second. *)
Theorem two_nameless_flags_never_return
  (win32 : bool) (argv : list string) (options : list ProgramOption)
  (t : tables) (a : list string) (f1 : string) (b : list string)
  (f2 : string) (c : list string) (o1 o2 : ProgramOption) :
  buildTables options initialTables = Returned t ->
  tail argv = (a ++ f1 :: b ++ f2 :: c)%list ->
  startsDash f1 = true -> allFlags t !! f1 = Some o1 -> name o1 = "" ->
  startsDash f2 = true -> allFlags t !! f2 = Some o2 -> name o2 = "" ->
  returned (parse win32 argv options) = false.
Proof.
  intros Hbuild Hargv Hd1 Ht1 Hn1 Hd2 Ht2 Hn2.
  destruct (parse win32 argv options) as [res | | |] eqn:Hparse;
    try reflexivity. exfalso.
  destruct (parse_returned_positional _ _ _ _ _ Hbuild Hparse)
    as (p' & Hscan & _).
  apply processArgs_scan in Hscan. rewrite Hargv in Hscan.
  destruct (scan_split_dash _ _ _ _ _ _ _ _ Hscan _ _ _ eq_refl Hd1)
    as (r1 & p1 & _ & Hf1).
  destruct (scan_flag_returned _ _ _ _ _ _ _ _ _ _ Hf1 Hd1 Ht1 Hn1)
    as [_ Hrest].
  pose proof (scan_no_second_binding _ _ _ _ _ _ _ _ _ _ _ _ Hrest eq_refl
                Hd2 Ht2 (or_introl Hn2)) as Hempty.
  rewrite Hn2, value_at_insert in Hempty. discriminate Hempty.
Qed.

Lemma two_nameless_flags_never_return_witness :
  returned (parse false ["prog"; "a.txt"; "--verbose"; "-o"; "b"; "--verbose"]
              renameOptions) = false.
Proof.
  apply (two_nameless_flags_never_return false
           ["prog"; "a.txt"; "--verbose"; "-o"; "b"; "--verbose"]
           renameOptions renameTables ["a.txt"] "--verbose" ["-o"; "b"]
           "--verbose" [] verboseOption verboseOption).
  - reflexivity.
  - reflexivity.
  - reflexivity.
  - reflexivity.
  - reflexivity.
  - reflexivity.
  - reflexivity.
  - reflexivity.
Defined.

(** Property X18.
    [parse] does not return from an input that gives a value that is
    not empty to an option and then has a flag of an option of the same
    name again: the [assert] of [setValue] stops the second binding. *)
Theorem value_given_twice_never_returns
  (win32 : bool) (argv : list string) (options : list ProgramOption)
  (t : tables) (a : list string) (f1 v1 : string) (b : list string)
  (f2 : string) (c : list string) (o1 o2 : ProgramOption) :
  buildTables options initialTables = Returned t ->
  tail argv = (a ++ f1 :: v1 :: b ++ f2 :: c)%list ->
  startsDash f1 = true -> allFlags t !! f1 = Some o1 ->
  takesValue o1 = true ->
  startsDash f2 = true -> allFlags t !! f2 = Some o2 ->
  takesValue o2 = true ->
  name o1 = name o2 -> v1 <> "" ->
  returned (parse win32 argv options) = false.
Proof.
  intros Hbuild Hargv Hd1 Ht1 Hv1 Hd2 Ht2 Hv2 Hsame Hne.
  destruct (parse win32 argv options) as [res | | |] eqn:Hparse;
    try reflexivity. exfalso.
  destruct (parse_returned_positional _ _ _ _ _ Hbuild Hparse)
    as (p' & Hscan & _).
  apply processArgs_scan in Hscan. rewrite Hargv in Hscan.
  destruct (scan_split_dash _ _ _ _ _ _ _ _ Hscan _ _ _ eq_refl Hd1)
    as (r1 & p1 & _ & Hf1).
  destruct (scan_value_returned _ _ _ _ _ _ _ _ _ _ Hf1 Hd1 Ht1 Hv1)
    as (v & rest' & Heq & _ & _ & Hrest).
  injection Heq as <- <-.
  pose proof (scan_no_second_binding _ _ _ _ _ _ _ _ _ _ _ _ Hrest eq_refl
                Hd2 Ht2 (or_intror Hv2)) as Hempty.
  rewrite <- Hsame, value_at_insert in Hempty. contradiction.
Qed.

Lemma value_given_twice_never_returns_witness :
  returned (parse false ["prog"; "-o"; "b.txt"; "a.txt"; "--output"; "c.txt"]
              renameOptions) = false.
Proof.
  apply (value_given_twice_never_returns false
           ["prog"; "-o"; "b.txt"; "a.txt"; "--output"; "c.txt"]
           renameOptions renameTables [] "-o" "b.txt" ["a.txt"]
           "--output" ["c.txt"] outputOption outputOption).
  - reflexivity.
  - reflexivity.
  - reflexivity.
  - reflexivity.
  - reflexivity.
  - reflexivity.
  - reflexivity.
  - reflexivity.
  - reflexivity.
  - discriminate.
Defined.

(** Property X19.
    With one bare token as the whole input, and a positional option
    whose name is not a flag, [parse] returns the defaults of the flags
    and that token under the name of the positional option. *)
Theorem single_positional_token
  (win32 : bool) (argv0 tok : string) (options : list ProgramOption)
  (t : tables) :
  buildTables options initialTables = Returned t ->
  bareToken tok = true ->
  name (positionalOption t) <> "" ->
  flagOf options (name (positionalOption t)) = false ->
  parse win32 [argv0; tok] options
  = Returned (<[name (positionalOption t) := tok]> (result t)).
Proof.
  intros Hbuild Hb Hn Hflag. unfold parse. rewrite Hbuild.
  cbv beta iota delta [mbind outcome_bind]. simpl tail.
  rewrite (processArgs_bare _ _ _ _ _ _ _ _ Hb).
  apply empty_false in Hn. rewrite Hn. simpl negb. cbv iota.
  rewrite setValue_eq, (seeded_value _ _ Hbuild _ Hflag). simpl.
  reflexivity.
Qed.

Lemma single_positional_token_witness :
  parse false ["prog"; "a.txt"] renameOptions
  = Returned (<[name (positionalOption renameTables) := "a.txt"]>
                (result renameTables)).
Proof.
  apply (single_positional_token false "prog" "a.txt" renameOptions
           renameTables).
  - reflexivity.
  - reflexivity.
  - discriminate.
  - reflexivity.
Defined.

(** Property X20.
    With no token at all and no positional option, [parse] returns the
    defaults: under each flag of the schema the default of its option,
    and no other key. *)
Theorem no_token_returns_defaults
  (win32 : bool) (argv : list string) (options : list ProgramOption)
  (t : tables) :
  buildTables options initialTables = Returned t ->
  tail argv = [] ->
  name (positionalOption t) = "" ->
  parse win32 argv options = Returned (result t)
  /\ forall k, result t !! k = defaultValue <$> allFlags t !! k.
Proof.
  intros Hbuild Hargv Hn. split.
  - rewrite (parse_end _ _ _ _ (result t, positionalOption t) Hbuild)
      by (unfold scanned; rewrite Hargv; reflexivity).
    rewrite checkPositional_eq, Hn. reflexivity.
  - apply buildTables_initial in Hbuild as (_ & Hseed & _). exact Hseed.
Qed.

Lemma no_token_returns_defaults_witness :
  parse false ["prog"] flagsOnlyOptions = Returned (result flagsOnlyTables)
  /\ forall k, result flagsOnlyTables !! k
               = defaultValue <$> allFlags flagsOnlyTables !! k.
Proof.
  apply (no_token_returns_defaults false ["prog"] flagsOnlyOptions
           flagsOnlyTables).
  - reflexivity.
  - reflexivity.
  - reflexivity.
Defined.

(** Property X14.
    [setValue] writes once: it returns exactly when the value [m[k]]
    reads under the name of the option is empty; the map then holds the
    new value there and is the same elsewhere; and when the new value is
    not empty, a further [setValue] for this option fails its
    [assert]. *)
Theorem setValue_writes_once
  (r r' : gmap string string) (opt : ProgramOption) (v : string) :
  priv.setValue r opt v = Returned r' ->
  value_at r (name opt) = ""
  /\ r' !! name opt = Some v
  /\ (forall k, k <> name opt -> r' !! k = r !! k)
  /\ (v <> "" -> forall w, priv.setValue r' opt w = AssertionFailed).
Proof.
  rewrite setValue_eq.
  destruct (empty (value_at r (name opt))) eqn:Ee; [|discriminate].
  intros H. injection H as <-. split; [by apply empty_true|].
  split; [apply lookup_insert_eq|]. split.
  - intros k Hk. by apply lookup_insert_ne.
  - intros Hv w. rewrite setValue_eq, value_at_insert.
    apply empty_false in Hv. by rewrite Hv.
Qed.

Lemma setValue_writes_once_witness :
  value_at (result renameTables) (name outputOption) = ""
  /\ <["output" := "b.txt"]> (result renameTables) !! name outputOption
     = Some "b.txt"
  /\ (forall k, k <> name outputOption ->
        <["output" := "b.txt"]> (result renameTables) !! k
        = result renameTables !! k)
  /\ ("b.txt" <> "" ->
      forall w,
        priv.setValue (<["output" := "b.txt"]> (result renameTables))
          outputOption w = AssertionFailed).
Proof.
  apply (setValue_writes_once (result renameTables)
           (<["output" := "b.txt"]> (result renameTables))
           outputOption "b.txt").
  reflexivity.
Defined.

(** ** From the constructors to [parse] *)

(** Property X22.
    The version string given to the constructor is what a version flag
    prints: an option made from the name [version] and a string that is
    not empty and does not end with ['.'], alone in the schema, makes
    [parse] write that string and a line feed and exit with code 0 on
    [-v] and on [--version]. *)
Theorem version_string_printed
  (win32 : bool) (ver argv0 f : string) (rest : list string) :
  ver <> "" -> back ver <> Some "."%char ->
  f = "-v" \/ f = "--version" ->
  exists o,
    ProgramOption_named "version" ver "" = Returned o
    /\ parse win32 (argv0 :: f :: rest) [o] = Exited 0 (ver +:+ nl) "".
Proof.
  intros Hne Hdot Hf. unfold ProgramOption_named, assert.
  destruct (back ver) as [c|] eqn:Eb; [|by apply back_None in Eb].
  destruct (Ascii.eqb c ".") eqn:Ec;
    [apply Ascii.eqb_eq in Ec as ->; congruence|].
  simpl. eexists. split; [reflexivity|].
  destruct Hf as [-> | ->]; reflexivity.
Qed.

Lemma version_string_printed_witness :
  exists o,
    ProgramOption_named "version" "1.0" "" = Returned o
    /\ parse false ("prog" :: "-v" :: ["a.txt"]) [o]
       = Exited 0 ("1.0" +:+ nl) "".
Proof.
  apply (version_string_printed false "1.0" "prog" "-v" ["a.txt"]).
  - discriminate.
  - discriminate.
  - left. reflexivity.
Defined.

Lemma helpSummary_about (options : list ProgramOption) (d : string) :
  (forall o, o ∈ options -> name o = "help" -> defaultValue o = d) ->
  forall about pos hv,
    (priv.helpSummary options (about, pos, hv)).1.1
    = if existsb (fun o => String.eqb (name o) "help") options
      then d else about.
Proof.
  induction options as [|o options IH]; intros Hd about pos hv;
    [reflexivity|].
  assert (Hd' : forall o', o' ∈ options -> name o' = "help" ->
                           defaultValue o' = d).
  { intros o' Ho'. apply Hd. apply elem_of_cons. by right. }
  simpl priv.helpSummary. simpl existsb.
  destruct (String.eqb (name o) "help") eqn:Eh.
  - rewrite (IH Hd'). simpl.
    rewrite (Hd o); [|apply elem_of_cons; by left | by apply String.eqb_eq].
    by destruct (existsb _ options).
  - simpl. destruct (String.eqb (name o) "version");
      [by rewrite (IH Hd')|].
    destruct (negb (empty (name o))); by rewrite (IH Hd').
Qed.

(** Property X7.
    The help message shows the about text, the string given with the
    name [help], followed by a full stop and an empty line; this is why
    the constructors refuse a text that ends with ['.']. *)
Theorem help_shows_about
  (win32 : bool) (argv0 : string) (options : list ProgramOption)
  (o : ProgramOption) :
  o ∈ options -> name o = "help" -> defaultValue o <> "" ->
  (forall o', o' ∈ options -> name o' = "help" ->
              defaultValue o' = defaultValue o) ->
  occursIn (defaultValue o +:+ "." +:+ nl +:+ nl)
    (priv.displayHelpMessage win32 argv0 options).
Proof.
  intros Ho Hn Hd Hall. unfold priv.displayHelpMessage.
  pose proof (helpSummary_about options (defaultValue o) Hall "" "" "") as Ha.
  destruct (priv.helpSummary options ("", "", "")) as [[about pos] hv].
  simpl in Ha.
  assert (Hex : existsb (fun o => String.eqb (name o) "help") options = true).
  { apply existsb_exists. exists o.
    split; [by apply list_elem_of_In | by apply String.eqb_eq]. }
  rewrite Hex in Ha. subst about.
  apply empty_false in Hd. rewrite Hd.
  do 7 apply occursIn_append_r. apply occursIn_append_l.
  apply occursIn_refl.
Qed.

Lemma help_shows_about_witness :
  occursIn (defaultValue helpOption +:+ "." +:+ nl +:+ nl)
    (priv.displayHelpMessage false "prog" renameOptions).
Proof.
  apply (help_shows_about false "prog" renameOptions helpOption).
  - apply list_elem_of_In. simpl. auto.
  - reflexivity.
  - discriminate.
  - intros o' Ho' Hn. unfold renameOptions in Ho'.
    repeat (apply elem_of_cons in Ho' as [-> | Ho']);
      try reflexivity; try discriminate Hn.
    by apply elem_of_nil in Ho'.
Defined.

Lemma flag_key_keeps_default_witness :
  <["" := "true"]> (<["input" := "a.txt"]> (result renameTables))
    !! "--verbose" = Some (defaultValue verboseOption).
Proof.
  apply (flag_key_keeps_default false ["prog"; "a.txt"; "--verbose"]
           renameOptions renameTables
           (<["" := "true"]> (<["input" := "a.txt"]> (result renameTables)))
           verboseOption "--verbose").
  - reflexivity.
  - reflexivity.
  - apply list_elem_of_In. simpl. tauto.
  - apply list_elem_of_In. simpl. tauto.
  - discriminate.
  - reflexivity.
  - discriminate.
Defined.

End cmdline.
